(** * hdump: a decoder for the Go 1.4 heap dump format (main.go)

    A shallow embedding of the decoders of [main.go] and of the two Go
    library routines they are built from ([binary.ReadUvarint] and
    [io.ReadFull]), with the properties of the format description proved
    about them.

    Conventions.
    - A byte is a [Z] in [0, 256); a [uint64] is a [Z] in [0, 2^64); Go's
      [int] is taken to be 64 bits wide (amd64), a [Z] in [-2^63, 2^63).
      Conversions between them wrap around and are written out.
    - The byte source [r] is the list of the bytes not read yet.  A Go
      function [f(r) (T, error)] becomes [f : reader -> T * option error *
      reader]: the value, the error ([None] is [nil]) and the source after
      the call.  Pointers and slices that may be [nil] are options.
    - Go strings are byte sequences: [list byte].
    - Memory is unbounded: [make] always succeeds. *)

From Stdlib Require Import ZArith List Lia Bool String Ascii.
Import ListNotations.
Local Open Scope Z_scope.

(** ** Machine integers *)

Definition byte := Z.
Definition reader := list byte.

Definition uint64 (x : Z) : Z := x mod 2 ^ 64.
Definition toByte (x : Z) : byte := x mod 256.

(** Conversion of a [uint64] to Go's signed [int] (two's complement). *)
Definition toInt (x : Z) : Z := (x + 2 ^ 63) mod 2 ^ 64 - 2 ^ 63.

Definition len {A : Type} (l : list A) : Z := Z.of_nat (List.length l).

(** ** Errors *)

Inductive error : Type :=
| EOF                                  (* io.EOF *)
| ErrUnexpectedEOF                     (* io.ErrUnexpectedEOF *)
| errOverflow                          (* binary: varint overflows a 64-bit integer *)
| errorString (s : string).            (* errors.New(s) *)

Definition errors_New (s : string) : error := errorString s.

Definition error_eqb (a b : error) : bool :=
  match a, b with
  | EOF, EOF => true
  | ErrUnexpectedEOF, ErrUnexpectedEOF => true
  | errOverflow, errOverflow => true
  | errorString s, errorString t => String.eqb s t
  | _, _ => false
  end.

(** The error taxonomy of the format description. *)
Inductive FormatError : Type := BadMagic | Truncated | Overflow.

Definition classify (e : error) : FormatError :=
  match e with
  | EOF | ErrUnexpectedEOF => Truncated
  | errOverflow => Overflow
  | errorString _ => BadMagic
  end.

(** ** The Go library routines used by main.go *)

(** [r.ReadByte()] of an [io.ByteReader]. *)
Definition ReadByte (r : reader) : byte * option error * reader :=
  match r with
  | [] => (0, Some EOF, [])
  | b :: r' => (b, None, r')
  end.

Definition MaxVarintLen64 : Z := 10.

(** [binary.ReadUvarint] of the current Go standard library: the loop
    [for i := 0; i < MaxVarintLen64; i++], with [n] the number of
    iterations left.  An end of input after the first byte is reported as
    [io.ErrUnexpectedEOF]; a tenth byte above 1, or ten continuation
    bytes, as an overflow. *)
Fixpoint ReadUvarint_loop (n : nat) (i x s : Z) (r : reader)
  : Z * option error * reader :=
  match n with
  | O => (x, Some errOverflow, r)
  | S n' =>
      let '(b, err, r) := ReadByte r in
      match err with
      | Some e =>
          (x, Some (if (0 <? i) && error_eqb e EOF then ErrUnexpectedEOF else e), r)
      | None =>
          if b <? 128 then
            if (i =? MaxVarintLen64 - 1) && (1 <? b)
            then (x, Some errOverflow, r)
            else (Z.lor x (uint64 (Z.shiftl b s)), None, r)
          else
            ReadUvarint_loop n' (i + 1)
              (Z.lor x (uint64 (Z.shiftl (Z.land b 127) s))) (s + 7) r
      end
  end.

Definition ReadUvarint (r : reader) : Z * option error * reader :=
  ReadUvarint_loop (Z.to_nat MaxVarintLen64) 0 0 0 r.

(** [io.ReadFull(r, buf)] with [len(buf) = n]: the bytes stored in [buf],
    the error and the source afterwards.  With [n = 0] nothing is read. *)
Definition ReadFull (n : Z) (r : reader) : list byte * option error * reader :=
  if n <=? 0 then ([], None, r)
  else if n <=? len r then (firstn (Z.to_nat n) r, None, skipn (Z.to_nat n) r)
  else match r with
       | [] => ([], Some EOF, [])
       | _ => (r, Some ErrUnexpectedEOF, [])
       end.

(** [bytes.Compare]: lexicographic order, -1, 0 or 1. *)
Fixpoint bytes_Compare (a b : list byte) : Z :=
  match a, b with
  | [], [] => 0
  | [], _ :: _ => -1
  | _ :: _, [] => 1
  | x :: a', y :: b' =>
      if x <? y then -1 else if y <? x then 1 else bytes_Compare a' b'
  end.

(** [time.Time], as the seconds and nanoseconds since the Unix epoch. *)
Record Time : Type := mkTime { unixSec : Z; unixNsec : Z }.

(** The zero [time.Time] is January 1, year 1, 00:00:00 UTC. *)
Definition Time_zero : Time := mkTime (-62135596800) 0.

(** [time.Unix(sec, nsec)], which brings [nsec] into [0, 1e9). *)
Definition time_Unix (sec nsec : Z) : Time :=
  if (nsec <? 0) || (1000000000 <=? nsec) then
    let n := Z.quot nsec 1000000000 in
    let sec := sec + n in
    let nsec := nsec - n * 1000000000 in
    if nsec <? 0 then mkTime (sec - 1) (nsec + 1000000000) else mkTime sec nsec
  else mkTime sec nsec.

(** ** The encoder of the wire format

    main.go only decodes.  The encoder below is the one the format
    description refers to: [binary.PutUvarint] for an unsigned varint
    (7 data bits per byte, least significant group first, high bit set on
    every byte but the last), and a uvarint length followed by the bytes
    for a payload.  A [uint64] needs at most nine continuation bytes. *)

Fixpoint PutUvarint_loop (n : nat) (x : Z) : list byte :=
  match n with
  | O => [toByte x]
  | S n' =>
      if 128 <=? x then Z.lor (toByte x) 128 :: PutUvarint_loop n' (Z.shiftr x 7)
      else [toByte x]
  end.

Definition PutUvarint (x : Z) : list byte := PutUvarint_loop 9 x.

Definition PutString (s : list byte) : list byte := PutUvarint (len s) ++ s.

(** Bytes of an ASCII string literal. *)
Definition str (s : string) : list byte :=
  map (fun a => Z.of_N (N_of_ascii a)) (list_ascii_of_string s).

(** ** main.go: data *)

(** [type fieldKind int], [type tag int], [type status int]. *)
Definition fieldKind (t : Z) : Z := toInt t.
Definition status (st : Z) : Z := toInt st.

Record field : Type := mkfield { field_kind : Z; field_ptr : Z }.

Definition header : list byte := Eval cbv in str "go1.4 heap dump" ++ [10].

Definition fieldKindEol : Z := 0.
Definition fieldKindPtr : Z := 1.
Definition fieldKindIface : Z := 2.
Definition fieldKindEface : Z := 3.

Definition tagEOF : Z := 0.
Definition tagObject : Z := 1.
Definition tagOtherRoot : Z := 2.
Definition tagType : Z := 3.
Definition tagGoroutine : Z := 4.
Definition tagStackFrame : Z := 5.

Definition statusIdle : Z := 0.
Definition statusRunnable : Z := 1.
Definition statusSyscall : Z := 2.
Definition statusWaiting : Z := 3.

Record object : Type := mkobject {
  object_addr : Z;
  object_contents : list byte;
  object_fields : option (list field)
}.

Record root : Type := mkroot {
  root_descr : list byte;
  root_ptr : Z
}.

Record Type_ : Type := mkType {
  Type_addr : Z;
  Type_size : Z;
  Type_name : list byte;
  Type_isPtr : bool
}.

Record Goroutine : Type := mkGoroutine {
  g_addr : Z;
  g_rframe : Z;
  g_id : Z;
  g_stmt : Z;
  g_status : Z;
  g_isSys : bool;
  g_isBackground : bool;
  g_started : Time;
  g_waitReason : list byte;
  g_ctx : Z;
  g_MThread : Z;
  g_dfer : Z;
  g_pnic : Z
}.

Record stackFrame : Type := mkstackFrame {
  s_ptr : Z;
  s_depth : Z;
  s_childPtr : Z;
  s_content : list byte;
  s_startPC : Z;
  s_currentPC : Z;
  s_continuePC : Z;
  s_name : list byte;
  s_fields : option (list field)
}.

(** [&Goroutine{}] and [&stackFrame{}]: every field at its zero value. *)
Definition Goroutine_zero : Goroutine :=
  mkGoroutine 0 0 0 0 0 false false Time_zero [] 0 0 0 0.

Definition stackFrame_zero : stackFrame :=
  mkstackFrame 0 0 0 [] 0 0 0 [] None.

(** Assignments [g.f = v] and [s.f = v]. *)
Module Set_g.
Definition addr v g := let '(mkGoroutine _ b c d e f h i j k l m n) := g in mkGoroutine v b c d e f h i j k l m n.
Definition rframe v g := let '(mkGoroutine a _ c d e f h i j k l m n) := g in mkGoroutine a v c d e f h i j k l m n.
Definition id v g := let '(mkGoroutine a b _ d e f h i j k l m n) := g in mkGoroutine a b v d e f h i j k l m n.
Definition stmt v g := let '(mkGoroutine a b c _ e f h i j k l m n) := g in mkGoroutine a b c v e f h i j k l m n.
Definition status v g := let '(mkGoroutine a b c d _ f h i j k l m n) := g in mkGoroutine a b c d v f h i j k l m n.
Definition isSys v g := let '(mkGoroutine a b c d e _ h i j k l m n) := g in mkGoroutine a b c d e v h i j k l m n.
Definition isBackground v g := let '(mkGoroutine a b c d e f _ i j k l m n) := g in mkGoroutine a b c d e f v i j k l m n.
Definition started v g := let '(mkGoroutine a b c d e f h _ j k l m n) := g in mkGoroutine a b c d e f h v j k l m n.
Definition waitReason v g := let '(mkGoroutine a b c d e f h i _ k l m n) := g in mkGoroutine a b c d e f h i v k l m n.
Definition ctx v g := let '(mkGoroutine a b c d e f h i j _ l m n) := g in mkGoroutine a b c d e f h i j v l m n.
Definition MThread v g := let '(mkGoroutine a b c d e f h i j k _ m n) := g in mkGoroutine a b c d e f h i j k v m n.
Definition dfer v g := let '(mkGoroutine a b c d e f h i j k l _ n) := g in mkGoroutine a b c d e f h i j k l v n.
Definition pnic v g := let '(mkGoroutine a b c d e f h i j k l m _) := g in mkGoroutine a b c d e f h i j k l m v.
End Set_g.

Module Set_s.
Definition ptr v s := let '(mkstackFrame _ b c d e f g h i) := s in mkstackFrame v b c d e f g h i.
Definition depth v s := let '(mkstackFrame a _ c d e f g h i) := s in mkstackFrame a v c d e f g h i.
Definition childPtr v s := let '(mkstackFrame a b _ d e f g h i) := s in mkstackFrame a b v d e f g h i.
Definition content v s := let '(mkstackFrame a b c _ e f g h i) := s in mkstackFrame a b c v e f g h i.
Definition startPC v s := let '(mkstackFrame a b c d _ f g h i) := s in mkstackFrame a b c d v f g h i.
Definition currentPC v s := let '(mkstackFrame a b c d e _ g h i) := s in mkstackFrame a b c d e v g h i.
Definition continuePC v s := let '(mkstackFrame a b c d e f _ h i) := s in mkstackFrame a b c d e f v h i.
Definition name v s := let '(mkstackFrame a b c d e f g _ i) := s in mkstackFrame a b c d e f g v i.
Definition fields v s := let '(mkstackFrame a b c d e f g h _) := s in mkstackFrame a b c d e f g h v.
End Set_s.

(** ** main.go: decoders *)

(** The idiom [if err != nil { return z, err }]. *)
Notation "'if_err' err 'return' z 'at' r ; k" :=
  (match err with Some _ => (z, err, r) | None => k end)
  (at level 10, err at level 0, z at level 0, r at level 0, k at level 200,
   format "'[v' 'if_err'  err  'return'  z  'at'  r ; '/' k ']'").

Definition readHeader (r : reader) : option error * reader :=
  let '(head, err, r) := ReadFull (len header) r in
  match err with
  | Some _ => (None, r)
  | None =>
      if negb (bytes_Compare header head =? 0)
      then (Some (errors_New "invalid heapdump"), r)
      else (None, r)
  end.

Definition readString (r : reader) : list byte * option error * reader :=
  let '(nbytes, err, r) := ReadUvarint r in
  if_err err return [] at r;
  let '(buf, err, r) := ReadFull nbytes r in
  if_err err return [] at r;
  (buf, None, r).

(** The loop of [readFieldlist].  Every iteration that does not return
    reads at least two bytes, so [S (length r)] iterations are never
    used up ([readFieldlist_loop_fuel] below); the result at [O] is never
    reached. *)
Fixpoint readFieldlist_loop (fuel : nat) (fields : list field) (r : reader)
  : option (list field) * option error * reader :=
  match fuel with
  | O => (None, None, r)
  | S fuel' =>
      let '(t, err, r) := ReadUvarint r in
      if_err err return None at r;
      if fieldKind t =? fieldKindEol then (Some fields, None, r)
      else
        let '(v, err, r) := ReadUvarint r in
        if_err err return None at r;
        readFieldlist_loop fuel' (fields ++ [mkfield (fieldKind t) v]) r
  end.

Definition readFieldlist (r : reader) : option (list field) * option error * reader :=
  readFieldlist_loop (S (List.length r)) [] r.

Definition readObject (r : reader) : option object * option error * reader :=
  let '(addr, err, r) := ReadUvarint r in
  if_err err return None at r;
  let '(contents, err, r) := readString r in
  if_err err return None at r;
  let '(fields, err, r) := readFieldlist r in
  if_err err return None at r;
  (Some (mkobject addr contents fields), None, r).

Definition readOtherRoot (r : reader) : option root * option error * reader :=
  let '(descr, err, r) := readString r in
  if_err err return None at r;
  let '(ptr, err, r) := ReadUvarint r in
  if_err err return None at r;
  (Some (mkroot descr ptr), None, r).

Definition readType (r : reader) : option Type_ * option error * reader :=
  let '(addr, err, r) := ReadUvarint r in
  if_err err return None at r;
  let '(size, err, r) := ReadUvarint r in
  if_err err return None at r;
  let '(name, err, r) := readString r in
  if_err err return None at r;
  let '(isptr, err, r) := ReadUvarint r in
  if_err err return None at r;
  (Some (mkType addr size name (negb (isptr =? 0))), None, r).

Definition Second : Z := 1000000000.

Definition readGoroutine (r : reader) : option Goroutine * option error * reader :=
  let g := Goroutine_zero in
  let '(v, err, r) := ReadUvarint r in
  let g := Set_g.addr v g in
  if_err err return None at r;
  let '(v, err, r) := ReadUvarint r in
  let g := Set_g.rframe v g in
  if_err err return None at r;
  let '(v, err, r) := ReadUvarint r in
  let g := Set_g.id v g in
  if_err err return None at r;
  let '(v, err, r) := ReadUvarint r in
  let g := Set_g.stmt v g in
  if_err err return None at r;
  let '(st, err, r) := ReadUvarint r in
  if_err err return None at r;
  let g := Set_g.status (status st) g in
  let '(b, err, r) := ReadUvarint r in
  if_err err return None at r;
  let g := Set_g.isSys (negb (b =? 1)) g in
  let '(b, err, r) := ReadUvarint r in
  if_err err return None at r;
  let g := Set_g.isBackground (negb (b =? 1)) g in
  let '(started, err, r) := ReadUvarint r in
  if_err err return None at r;
  let g := Set_g.started
             (time_Unix (toInt (started / Second)) (toInt (started mod Second))) g in
  let '(v, err, r) := readString r in
  let g := Set_g.waitReason v g in
  if_err err return None at r;
  let '(v, err, r) := ReadUvarint r in
  let g := Set_g.ctx v g in
  if_err err return None at r;
  let '(v, err, r) := ReadUvarint r in
  let g := Set_g.MThread v g in
  if_err err return None at r;
  let '(v, err, r) := ReadUvarint r in
  let g := Set_g.dfer v g in
  if_err err return None at r;
  let '(v, err, r) := ReadUvarint r in
  let g := Set_g.pnic v g in
  if_err err return None at r;
  (Some g, None, r).

Definition readStackFrame (r : reader) : option stackFrame * option error * reader :=
  let s := stackFrame_zero in
  let '(v, err, r) := ReadUvarint r in
  let s := Set_s.ptr v s in
  if_err err return None at r;
  let '(v, err, r) := ReadUvarint r in
  let s := Set_s.depth v s in
  if_err err return None at r;
  let '(v, err, r) := ReadUvarint r in
  let s := Set_s.childPtr v s in
  if_err err return None at r;
  let '(v, err, r) := readString r in
  let s := Set_s.content v s in
  if_err err return None at r;
  let '(v, err, r) := ReadUvarint r in
  let s := Set_s.startPC v s in
  if_err err return None at r;
  let '(v, err, r) := ReadUvarint r in
  let s := Set_s.currentPC v s in
  if_err err return None at r;
  let '(v, err, r) := ReadUvarint r in
  let s := Set_s.continuePC v s in
  if_err err return None at r;
  let '(v, err, r) := readString r in
  let s := Set_s.name v s in
  if_err err return None at r;
  let '(v, err, r) := readFieldlist r in
  let s := Set_s.fields v s in
  if_err err return None at r;
  (Some s, None, r).

(** ** The wire layout of the format description

    The description gives every record as a fixed, ordered sequence of
    primitive reads (section 4.3).  [runScript] performs the reads of a
    layout in order and stops at the first one that fails; it keeps the
    values read so far, so that what a decoder returns can be compared
    with what had been read when an error came up. *)

Inductive prim : Type :=
| U        (* unsigned varint *)
| B        (* length-prefixed bytes *)
| F.       (* field list *)

Inductive rawval : Type :=
| RU (x : Z)
| RB (s : list byte)
| RF (l : list field).

(** The field-list reads of section 4.2: (kind, offset) pairs up to an
    [End] kind, accumulated in order. *)
Fixpoint scanFieldlist (fuel : nat) (acc : list field) (r : reader)
  : list field * option error * reader :=
  match fuel with
  | O => (acc, None, r)
  | S fuel' =>
      match ReadUvarint r with
      | (_, Some e, r1) => (acc, Some e, r1)
      | (k, None, r1) =>
          if k =? 0 then (acc, None, r1)
          else match ReadUvarint r1 with
               | (_, Some e, r2) => (acc, Some e, r2)
               | (v, None, r2) => scanFieldlist fuel' (acc ++ [mkfield (toInt k) v]) r2
               end
      end
  end.

Definition runPrim (p : prim) (r : reader) : rawval * option error * reader :=
  match p with
  | U => let '(x, e, r') := ReadUvarint r in (RU x, e, r')
  | B => let '(s, e, r') := readString r in (RB s, e, r')
  | F => let '(l, e, r') := scanFieldlist (S (List.length r)) [] r in (RF l, e, r')
  end.

Fixpoint runScript (sc : list prim) (r : reader)
  : list rawval * option error * reader :=
  match sc with
  | [] => ([], None, r)
  | p :: sc' =>
      match runPrim p r with
      | (v, Some e, r1) => ([], Some e, r1)
      | (v, None, r1) =>
          let '(vs, e, r2) := runScript sc' r1 in (v :: vs, e, r2)
      end
  end.

(** The decoders of main.go, and what each returns. *)
Inductive decoder : Type :=
| DObject | DOtherRoot | DType | DGoroutine | DStackFrame | DFieldlist.

Inductive record : Type :=
| RecObject (o : object)
| RecRoot (x : root)
| RecType (t : Type_)
| RecGoroutine (g : Goroutine)
| RecStackFrame (s : stackFrame)
| RecFields (l : list field).

Definition lift {A : Type} (c : A -> record)
  (x : option A * option error * reader) : option record * option error * reader :=
  let '(v, e, r) := x in (option_map c v, e, r).

Definition decode (d : decoder) (r : reader) : option record * option error * reader :=
  match d with
  | DObject => lift RecObject (readObject r)
  | DOtherRoot => lift RecRoot (readOtherRoot r)
  | DType => lift RecType (readType r)
  | DGoroutine => lift RecGoroutine (readGoroutine r)
  | DStackFrame => lift RecStackFrame (readStackFrame r)
  | DFieldlist => lift RecFields (readFieldlist r)
  end.

(** Section 4.3: the order of the reads of every record kind. *)
Definition layout (d : decoder) : list prim :=
  match d with
  | DObject => [U; B; F]
  | DOtherRoot => [B; U]
  | DType => [U; U; B; U]
  | DGoroutine => [U; U; U; U; U; U; U; U; B; U; U; U; U]
  | DStackFrame => [U; U; U; B; U; U; U; B; F]
  | DFieldlist => [F]
  end.

(** Encoding of a field list: two uvarints per field, then [End]. *)
Definition PutField (f : field) : list byte :=
  PutUvarint (uint64 (field_kind f)) ++ PutUvarint (field_ptr f).

Definition PutFieldlist (fs : list field) : list byte :=
  List.concat (map PutField fs) ++ PutUvarint fieldKindEol.

Definition wf_field (f : field) : Prop :=
  - 2 ^ 63 <= field_kind f < 2 ^ 63 /\ field_kind f <> 0 /\
  0 <= field_ptr f < 2 ^ 64.

(** ** Reading off the values of a layout, and example inputs *)

(** The values a layout reads from [r], and the [i]-th of them when it is
    a uvarint. *)
Definition wire (d : decoder) (r : reader) : list rawval :=
  fst (fst (runScript (layout d) r)).

Definition rawU (vs : list rawval) (i : nat) : option Z :=
  match nth_error vs i with
  | Some (RU x) => Some x
  | _ => None
  end.

(** The first five bytes of the magic: "go1.4". *)
Definition truncated_header : list byte := firstn 5 header.

(** A goroutine record with the given status, flags and start timestamp,
    every other field zero or empty. *)
Definition goroutine_bytes (st sys bg started : Z) : list byte :=
  PutUvarint 0 ++ PutUvarint 0 ++ PutUvarint 0 ++ PutUvarint 0 ++
  PutUvarint st ++ PutUvarint sys ++ PutUvarint bg ++ PutUvarint started ++
  PutString [] ++
  PutUvarint 0 ++ PutUvarint 0 ++ PutUvarint 0 ++ PutUvarint 0.

(** The heap object of the end-to-end scenario: address 0x2000, payload
    [1; 2; 3], one pointer field at offset 0. *)
Definition object_bytes : list byte :=
  PutUvarint 8192 ++ PutString [1; 2; 3] ++ PutFieldlist [mkfield fieldKindPtr 0].

(** Two facts about a byte, as a test that is run on all 256 values. *)
Definition byte_facts (m : Z) : bool :=
  (128 <=? Z.lor m 128) && (Z.land (Z.lor m 128) 127 =? m mod 128).

(** ** Predicates used in the further properties *)

(** The range of a [uint64]. *)
Definition in_uint64 (x : Z) : Prop := 0 <= x < 2 ^ 64.

(** [f] on a source cut after [P]: either [f] had all its bytes in [P]
    and behaves the same, or it fails with a truncation error at the end
    of [P]. *)
Definition cut_ok {A : Type} (f : reader -> A * option error * reader) : Prop :=
  forall (P T : list byte) v r',
    f (P ++ T) = (v, None, r') ->
    (exists P', r' = P' ++ T /\ f P = (v, None, P')) \/
    (exists v' e, f P = (v', Some e, []) /\ classify e = Truncated).

(** [f] reads a prefix of its source and depends on nothing else. *)
Definition split_ok {A : Type} (f : reader -> A * option error * reader) : Prop :=
  forall (r : reader) v r',
    f r = (v, None, r') -> exists c, r = c ++ r' /\ f c = (v, None, []).


(** * Properties *)

(** ** Integer conversions *)

Lemma lor_range (n a b : Z) :
  0 <= n -> 0 <= a < 2 ^ n -> 0 <= b < 2 ^ n -> 0 <= Z.lor a b < 2 ^ n.
Proof.
  intros Hn Ha Hb.
  assert (E : Z.lor a b = Z.lor a b mod 2 ^ n).
  { rewrite <- (Z.land_ones _ n) by assumption.
    rewrite Z.land_lor_distr_l, !Z.land_ones by assumption.
    rewrite !Z.mod_small by assumption. reflexivity. }
  rewrite E. apply Z.mod_pos_bound. apply Z.pow_pos_nonneg; lia.
Qed.

Lemma uint64_range (x : Z) : 0 <= uint64 x < 2 ^ 64.
Proof. unfold uint64. apply Z.mod_pos_bound. reflexivity. Qed.

Lemma uint64_small (x : Z) : 0 <= x < 2 ^ 64 -> uint64 x = x.
Proof. intros. unfold uint64. apply Z.mod_small. assumption. Qed.

Lemma toInt_small (x : Z) : 0 <= x < 2 ^ 63 -> toInt x = x.
Proof. intros H. unfold toInt. rewrite Z.mod_small; lia. Qed.

Lemma toInt_uint64 (k : Z) : - 2 ^ 63 <= k < 2 ^ 63 -> toInt (uint64 k) = k.
Proof.
  intros H. unfold toInt, uint64.
  rewrite Zplus_mod_idemp_l. rewrite Z.mod_small; lia.
Qed.

Lemma toInt_eq_0 (x : Z) : 0 <= x < 2 ^ 64 -> (toInt x =? 0) = (x =? 0).
Proof.
  intros H. unfold toInt.
  destruct (Z_lt_ge_dec x (2 ^ 63)) as [L | G].
  - rewrite Z.mod_small by lia. f_equal. lia.
  - replace (x + 2 ^ 63) with ((x - 2 ^ 63) + 1 * 2 ^ 64) by lia.
    rewrite Z_mod_plus_full, Z.mod_small by lia.
    destruct (Z.eqb_spec (x - 2 ^ 63 - 2 ^ 63) 0), (Z.eqb_spec x 0); lia.
Qed.

Ltac case_if H :=
  match type of H with context [if ?c then _ else _] => destruct c eqn:? end.

(** ** [ReadUvarint]: range, progress and independence of what follows *)

Lemma ReadUvarint_loop_range (n : nat) (i x s : Z) (r : reader) v e r' :
  0 <= x < 2 ^ 64 ->
  ReadUvarint_loop n i x s r = (v, e, r') -> 0 <= v < 2 ^ 64.
Proof.
  revert i x s r. induction n as [| n IH]; intros i x s r Hx H; simpl in H.
  - inversion H; subst; exact Hx.
  - destruct r as [| b r0]; simpl in H.
    + inversion H; subst; exact Hx.
    + destruct (b <? 128).
      * case_if H; inversion H; subst.
        -- exact Hx.
        -- apply lor_range; [lia | exact Hx | apply uint64_range].
      * eapply IH; [| exact H].
        apply lor_range; [lia | exact Hx | apply uint64_range].
Qed.

Lemma ReadUvarint_range (r : reader) v e r' :
  ReadUvarint r = (v, e, r') -> 0 <= v < 2 ^ 64.
Proof. apply ReadUvarint_loop_range. lia. Qed.

Lemma ReadUvarint_loop_app (n : nat) (i x s : Z) (r : reader) v r' (S : reader) :
  ReadUvarint_loop n i x s r = (v, None, r') ->
  ReadUvarint_loop n i x s (r ++ S) = (v, None, r' ++ S).
Proof.
  revert i x s r. induction n as [| n IH]; intros i x s r H; simpl in H.
  - discriminate.
  - destruct r as [| b r0]; simpl in H; [discriminate |].
    simpl. destruct (b <? 128).
    + simpl. case_if H; inversion H; subst; reflexivity.
    + apply IH; assumption.
Qed.

Lemma ReadUvarint_app (r : reader) v r' (S : reader) :
  ReadUvarint r = (v, None, r') -> ReadUvarint (r ++ S) = (v, None, r' ++ S).
Proof. apply ReadUvarint_loop_app. Qed.

Lemma ReadUvarint_loop_length (n : nat) (i x s : Z) (r : reader) v e r' :
  ReadUvarint_loop n i x s r = (v, e, r') ->
  (List.length r' <= List.length r)%nat /\
  (e = None -> (List.length r' < List.length r)%nat).
Proof.
  revert i x s r. induction n as [| n IH]; intros i x s r H; simpl in H.
  - inversion H; subst. split; [lia | discriminate].
  - destruct r as [| b r0]; simpl in H.
    + inversion H; subst. split; [lia | discriminate].
    + destruct (b <? 128).
      * case_if H; inversion H; subst;
          simpl; split; try lia; discriminate.
      * apply IH in H. simpl. destruct H as [H1 H2]. split; [lia |].
        intros E. specialize (H2 E). lia.
Qed.

Lemma ReadUvarint_length (r : reader) v r' :
  ReadUvarint r = (v, None, r') -> (List.length r' < List.length r)%nat.
Proof. intros H. apply ReadUvarint_loop_length in H. apply H. reflexivity. Qed.

(** ** Round trip of the unsigned varint *)

Lemma byte_facts_all (m : Z) : 0 <= m < 256 -> byte_facts m = true.
Proof.
  intros H.
  assert (A : forallb byte_facts (map Z.of_nat (seq 0 256)) = true) by (vm_compute; reflexivity).
  rewrite forallb_forall in A. apply A.
  apply in_map_iff. exists (Z.to_nat m). split; [lia |].
  apply in_seq. lia.
Qed.

Lemma cont_byte_ge (x : Z) : (Z.lor (toByte x) 128 <? 128) = false.
Proof.
  pose proof (byte_facts_all (toByte x)) as H.
  unfold byte_facts in H. rewrite andb_true_iff in H.
  destruct H as [H _]; [apply Z.mod_pos_bound; lia |].
  apply Z.ltb_ge. apply Z.leb_le. exact H.
Qed.

Lemma cont_byte_low (x : Z) : Z.land (Z.lor (toByte x) 128) 127 = x mod 128.
Proof.
  pose proof (byte_facts_all (toByte x)) as H.
  unfold byte_facts in H. rewrite andb_true_iff in H.
  destruct H as [_ H]; [apply Z.mod_pos_bound; lia |].
  apply Z.eqb_eq in H. rewrite H. unfold toByte.
  apply Z.mod_unique with (q := 2 * (x / 256) + (x mod 256) / 128).
  - left. apply Z.mod_pos_bound. lia.
  - pose proof (Z.div_mod x 256 ltac:(lia)) as E1.
    pose proof (Z.div_mod (x mod 256) 128 ltac:(lia)) as E2.
    rewrite E1 at 1. rewrite E2 at 1. ring.
Qed.

Lemma split_low7 (x : Z) :
  Z.lor (x mod 128) (Z.shiftl (Z.shiftr x 7) 7) = x.
Proof.
  change 128 with (2 ^ 7). rewrite <- Z.land_ones by lia.
  rewrite <- Z.ldiff_ones_r by lia.
  rewrite Z.lor_comm. apply Z.lor_ldiff_and.
Qed.

Lemma shiftl_bound (x s : Z) :
  0 <= s <= 64 -> 0 <= x < 2 ^ (64 - s) -> 0 <= Z.shiftl x s < 2 ^ 64.
Proof.
  intros Hs Hx. rewrite Z.shiftl_mul_pow2 by lia.
  assert (P : 0 < 2 ^ s) by (apply Z.pow_pos_nonneg; lia).
  replace (2 ^ 64) with (2 ^ (64 - s) * 2 ^ s)
    by (rewrite <- Z.pow_add_r by lia; f_equal; lia).
  split; [apply Z.mul_nonneg_nonneg; lia |].
  apply Z.mul_lt_mono_pos_r; lia.
Qed.

Lemma ReadUvarint_loop_cons (n : nat) (i x s b : Z) (r : reader) :
  ReadUvarint_loop (S n) i x s (b :: r) =
  if b <? 128 then
    if (i =? MaxVarintLen64 - 1) && (1 <? b)
    then (x, Some errOverflow, r)
    else (Z.lor x (uint64 (Z.shiftl b s)), None, r)
  else ReadUvarint_loop n (i + 1)
         (Z.lor x (uint64 (Z.shiftl (Z.land b 127) s))) (s + 7) r.
Proof. reflexivity. Qed.

Lemma ReadUvarint_loop_last (n : nat) (i x s b : Z) (r : reader) :
  0 <= b < 128 -> (i = 9 -> b <= 1) -> 0 <= s <= 64 -> b < 2 ^ (64 - s) ->
  ReadUvarint_loop (S n) i x s (toByte b :: r) = (Z.lor x (Z.shiftl b s), None, r).
Proof.
  intros Hb Hi Hs Hbs. unfold toByte. rewrite Z.mod_small by lia.
  rewrite ReadUvarint_loop_cons.
  destruct (Z.ltb_spec b 128); [| lia].
  assert (E : (i =? MaxVarintLen64 - 1) && (1 <? b) = false).
  { apply andb_false_iff. unfold MaxVarintLen64.
    destruct (Z.eqb_spec i (10 - 1)); [right | left; reflexivity].
    apply Z.ltb_ge. apply Hi. lia. }
  rewrite E. rewrite uint64_small by (apply shiftl_bound; lia). reflexivity.
Qed.

Lemma ReadUvarint_PutUvarint_loop (n : nat) :
  forall (i x acc s : Z) (S : reader),
    Z.of_nat n + i = 9 -> 0 <= i -> s = 7 * i -> 0 <= x < 2 ^ (64 - s) ->
    ReadUvarint_loop (Datatypes.S n) i acc s (PutUvarint_loop n x ++ S) =
    (Z.lor acc (Z.shiftl x s), None, S).
Proof.
  induction n as [| n IH]; intros i x acc s S Hn Hi Hs Hx.
  - assert (i = 9) by lia. subst i s. simpl PutUvarint_loop. simpl app.
    change (2 ^ (64 - 7 * 9)) with 2 in Hx.
    apply ReadUvarint_loop_last; lia.
  - simpl PutUvarint_loop. destruct (Z.leb_spec 128 x) as [G | L].
    + simpl app. rewrite ReadUvarint_loop_cons, cont_byte_ge, cont_byte_low.
      assert (Hs7 : 0 <= s <= 57) by lia.
      assert (P : 2 ^ 7 <= 2 ^ (64 - s)) by (apply Z.pow_le_mono_r; lia).
      rewrite uint64_small.
      2:{ apply shiftl_bound; [lia |].
          pose proof (Z.mod_pos_bound x 128 ltac:(lia)) as M.
          change (2 ^ 7) with 128 in P. lia. }
      rewrite IH; try lia.
      * f_equal. f_equal. rewrite <- Z.lor_assoc. f_equal.
        replace (s + 7) with (7 + s) by lia.
        rewrite <- Z.shiftl_shiftl by lia.
        rewrite <- Z.shiftl_lor. rewrite split_low7. reflexivity.
      * rewrite Z.shiftr_div_pow2 by lia. split.
        -- apply Z.div_pos; lia.
        -- apply Z.div_lt_upper_bound; [lia |].
           rewrite <- Z.pow_add_r by lia.
           replace (7 + (64 - (s + 7))) with (64 - s) by lia. lia.
    + simpl app. apply ReadUvarint_loop_last; try lia.
Qed.

Lemma ReadUvarint_PutUvarint (x : Z) (S : reader) :
  0 <= x < 2 ^ 64 -> ReadUvarint (PutUvarint x ++ S) = (x, None, S).
Proof.
  intros H. unfold ReadUvarint, PutUvarint.
  change (Z.to_nat MaxVarintLen64) with 10%nat.
  rewrite ReadUvarint_PutUvarint_loop with (i := 0) (s := 0); try lia.
  rewrite Z.shiftl_0_r. reflexivity.
Qed.

Lemma PutUvarint_length_pos (x : Z) : (0 < List.length (PutUvarint x))%nat.
Proof.
  unfold PutUvarint. cbn [PutUvarint_loop].
  destruct (128 <=? x); cbn [List.length]; lia.
Qed.

(** ** [ReadFull] and [readString] *)

Lemma ReadFull_app (n : Z) (r : reader) buf r' (S : reader) :
  ReadFull n r = (buf, None, r') -> ReadFull n (r ++ S) = (buf, None, r' ++ S).
Proof.
  unfold ReadFull, len. intros H.
  destruct (Z.leb_spec n 0) as [L0 | G0].
  - inversion H; subst. reflexivity.
  - destruct (Z.leb_spec n (Z.of_nat (List.length r))) as [L | G].
    + inversion H; subst.
      rewrite length_app.
      destruct (Z.leb_spec n (Z.of_nat (List.length r + List.length S))); [| lia].
      rewrite firstn_app, skipn_app.
      replace (Z.to_nat n - List.length r)%nat with 0%nat by lia.
      simpl. rewrite app_nil_r. reflexivity.
    + destruct r; discriminate.
Qed.

Lemma ReadFull_exact (b S : list byte) : ReadFull (len b) (b ++ S) = (b, None, S).
Proof.
  unfold ReadFull, len.
  destruct (Z.leb_spec (Z.of_nat (List.length b)) 0) as [L0 | G0].
  - destruct b; [reflexivity | simpl in L0; lia].
  - rewrite length_app.
    destruct (Z.leb_spec (Z.of_nat (List.length b))
                (Z.of_nat (List.length b + List.length S))); [| lia].
    rewrite Nat2Z.id, firstn_app, skipn_app, Nat.sub_diag.
    rewrite firstn_all, skipn_all. simpl. rewrite app_nil_r. reflexivity.
Qed.

Lemma readString_app (r : reader) v r' (S : reader) :
  readString r = (v, None, r') -> readString (r ++ S) = (v, None, r' ++ S).
Proof.
  unfold readString. intros H.
  destruct (ReadUvarint r) as [[n [e |]] r1] eqn:E1; [discriminate |].
  rewrite (ReadUvarint_app _ _ _ S E1).
  destruct (ReadFull n r1) as [[buf [e |]] r2] eqn:E2; [discriminate |].
  rewrite (ReadFull_app _ _ _ _ S E2).
  inversion H; subst. reflexivity.
Qed.

Lemma readString_PutString (b S : list byte) :
  len b < 2 ^ 64 -> readString (PutString b ++ S) = (b, None, S).
Proof.
  intros H. unfold readString, PutString. rewrite <- app_assoc.
  rewrite ReadUvarint_PutUvarint by (unfold len in *; lia).
  rewrite ReadFull_exact. reflexivity.
Qed.

(** ** The loop of [readFieldlist] *)

Lemma readFieldlist_loop_fuel (fuel1 : nat) :
  forall (fuel2 : nat) (acc : list field) (r : reader),
    (List.length r < fuel1)%nat -> (List.length r < fuel2)%nat ->
    readFieldlist_loop fuel1 acc r = readFieldlist_loop fuel2 acc r.
Proof.
  induction fuel1 as [| fuel1 IH]; intros fuel2 acc r H1 H2; [lia |].
  destruct fuel2 as [| fuel2]; [lia |]. simpl.
  destruct (ReadUvarint r) as [[t [e |]] r1] eqn:E1; [reflexivity |].
  destruct (fieldKind t =? fieldKindEol); [reflexivity |].
  destruct (ReadUvarint r1) as [[v [e |]] r2] eqn:E2; [reflexivity |].
  apply ReadUvarint_length in E1. apply ReadUvarint_length in E2.
  apply IH; lia.
Qed.

Lemma readFieldlist_loop_S (fuel : nat) (acc : list field) (r : reader) :
  readFieldlist_loop (S fuel) acc r =
  let '(t, err, r1) := ReadUvarint r in
  match err with
  | Some _ => (None, err, r1)
  | None =>
      if fieldKind t =? fieldKindEol then (Some acc, None, r1)
      else
        let '(v, err, r2) := ReadUvarint r1 in
        match err with
        | Some _ => (None, err, r2)
        | None => readFieldlist_loop fuel (acc ++ [mkfield (fieldKind t) v]) r2
        end
  end.
Proof. reflexivity. Qed.

(** [readFieldlist] as the loop body followed by the rest of the loop. *)
Lemma readFieldlist_loop_unfold (fuel : nat) (acc : list field) (r : reader) :
  (List.length r < fuel)%nat ->
  readFieldlist_loop fuel acc r =
  let '(t, err, r1) := ReadUvarint r in
  match err with
  | Some _ => (None, err, r1)
  | None =>
      if fieldKind t =? fieldKindEol then (Some acc, None, r1)
      else
        let '(v, err, r2) := ReadUvarint r1 in
        match err with
        | Some _ => (None, err, r2)
        | None =>
            readFieldlist_loop (S (List.length r2)) (acc ++ [mkfield (fieldKind t) v]) r2
        end
  end.
Proof.
  intros H. destruct fuel as [| fuel]; [lia |]. rewrite readFieldlist_loop_S.
  destruct (ReadUvarint r) as [[t [e |]] r1] eqn:E1; [reflexivity |].
  destruct (fieldKind t =? fieldKindEol); [reflexivity |].
  destruct (ReadUvarint r1) as [[v [e |]] r2] eqn:E2; [reflexivity |].
  apply ReadUvarint_length in E1. apply ReadUvarint_length in E2.
  apply readFieldlist_loop_fuel; lia.
Qed.

Lemma readFieldlist_loop_app (fuel : nat) :
  forall (fuel' : nat) (acc : list field) (r : reader) l r' (S : reader),
    (List.length r < fuel)%nat -> (List.length (r ++ S) < fuel')%nat ->
    readFieldlist_loop fuel acc r = (Some l, None, r') ->
    readFieldlist_loop fuel' acc (r ++ S) = (Some l, None, r' ++ S).
Proof.
  induction fuel as [| fuel IH]; intros fuel' acc r l r' S H1 H2 H; [lia |].
  destruct fuel' as [| fuel']; [lia |]. simpl in H |- *.
  destruct (ReadUvarint r) as [[t [e |]] r1] eqn:E1; [discriminate |].
  rewrite (ReadUvarint_app _ _ _ S E1).
  destruct (fieldKind t =? fieldKindEol).
  - inversion H; subst. reflexivity.
  - destruct (ReadUvarint r1) as [[v [e |]] r2] eqn:E2; [discriminate |].
    rewrite (ReadUvarint_app _ _ _ S E2).
    apply ReadUvarint_length in E1. apply ReadUvarint_length in E2.
    rewrite length_app in H2.
    apply IH; [lia | rewrite length_app; lia | exact H].
Qed.

Lemma readFieldlist_app (r : reader) l r' (S : reader) :
  readFieldlist r = (Some l, None, r') ->
  readFieldlist (r ++ S) = (Some l, None, r' ++ S).
Proof.
  unfold readFieldlist. apply readFieldlist_loop_app; lia.
Qed.

Lemma readFieldlist_ok_some (fuel : nat) :
  forall (acc : list field) (r : reader) v r',
    readFieldlist_loop fuel acc r = (v, None, r') -> (List.length r < fuel)%nat ->
    exists l, v = Some l.
Proof.
  induction fuel as [| fuel IH]; intros acc r v r' H Hf; [lia |].
  simpl in H.
  destruct (ReadUvarint r) as [[t [e |]] r1] eqn:E1; [discriminate |].
  destruct (fieldKind t =? fieldKindEol).
  - inversion H; subst. eexists; reflexivity.
  - destruct (ReadUvarint r1) as [[x [e |]] r2] eqn:E2; [discriminate |].
    apply ReadUvarint_length in E1. apply ReadUvarint_length in E2.
    eapply IH; [exact H | lia].
Qed.

(** The decoder against the reads of the description. *)
Lemma readFieldlist_scan_error (fuel : nat) :
  forall (acc : list field) (r : reader) l e r',
    scanFieldlist fuel acc r = (l, Some e, r') ->
    readFieldlist_loop fuel acc r = (None, Some e, r').
Proof.
  induction fuel as [| fuel IH]; intros acc r l e r' H; simpl in H |- *.
  - discriminate.
  - destruct (ReadUvarint r) as [[t [e1 |]] r1] eqn:E1.
    + inversion H; subst. reflexivity.
    + unfold fieldKind, fieldKindEol.
      rewrite (toInt_eq_0 t) by (eapply ReadUvarint_range; exact E1).
      destruct (t =? 0); [discriminate |].
      destruct (ReadUvarint r1) as [[v [e2 |]] r2] eqn:E2.
      * inversion H; subst. reflexivity.
      * eapply IH. exact H.
Qed.

Lemma readFieldlist_scan_ok (fuel : nat) :
  forall (acc : list field) (r : reader) l r',
    (List.length r < fuel)%nat ->
    scanFieldlist fuel acc r = (l, None, r') ->
    readFieldlist_loop fuel acc r = (Some l, None, r').
Proof.
  induction fuel as [| fuel IH]; intros acc r l r' Hf H; [lia |].
  simpl in H |- *.
  destruct (ReadUvarint r) as [[t [e1 |]] r1] eqn:E1; [discriminate |].
  unfold fieldKind, fieldKindEol.
  rewrite (toInt_eq_0 t) by (eapply ReadUvarint_range; exact E1).
  destruct (t =? 0).
  - inversion H; subst. reflexivity.
  - destruct (ReadUvarint r1) as [[v [e2 |]] r2] eqn:E2; [discriminate |].
    apply ReadUvarint_length in E1. apply ReadUvarint_length in E2.
    apply IH; [lia | exact H].
Qed.

(** ** Round trip of the field list *)

Lemma readFieldlist_loop_PutFieldlist (fs : list field) :
  forall (fuel : nat) (acc : list field) (S : reader),
    Forall wf_field fs ->
    (List.length (PutFieldlist fs ++ S) < fuel)%nat ->
    readFieldlist_loop fuel acc (PutFieldlist fs ++ S) = (Some (acc ++ fs), None, S).
Proof.
  induction fs as [| f fs IH]; intros fuel acc S Hwf Hf.
  - rewrite readFieldlist_loop_unfold by exact Hf.
    unfold PutFieldlist. cbn [List.concat map app].
    rewrite ReadUvarint_PutUvarint by (unfold fieldKindEol; lia).
    rewrite app_nil_r. reflexivity.
  - inversion Hwf as [| f' fs' [Hk [Hk0 Hp]] Hwf']; subst.
    rewrite readFieldlist_loop_unfold by exact Hf.
    unfold PutFieldlist in *. cbn [List.concat map] in *. unfold PutField at 1.
    rewrite <- !app_assoc.
    rewrite ReadUvarint_PutUvarint by apply uint64_range.
    unfold fieldKind, fieldKindEol. rewrite toInt_uint64 by exact Hk.
    destruct (Z.eqb_spec (field_kind f) 0) as [E | _]; [contradiction |].
    rewrite ReadUvarint_PutUvarint by exact Hp.
    rewrite app_assoc.
    rewrite IH; [| exact Hwf' | apply Nat.lt_succ_diag_r].
    rewrite <- app_assoc. destruct f. reflexivity.
Qed.

(** ** Decoders: independence of what follows the record *)

Lemma readFieldlist_app_any (r : reader) v r' (S : reader) :
  readFieldlist r = (v, None, r') -> readFieldlist (r ++ S) = (v, None, r' ++ S).
Proof.
  intros H. destruct (readFieldlist_ok_some _ _ _ _ _ H (Nat.lt_succ_diag_r _)) as [l ->].
  apply readFieldlist_app. exact H.
Qed.

(** One read of a decoder that succeeded on [r], replayed on [r ++ S]. *)
Ltac frame_step H S :=
  let E := fresh "E" in
  match type of H with
  | context [ReadUvarint ?r] =>
      destruct (ReadUvarint r) as [[? [? |]] ?] eqn:E; [discriminate H |];
      rewrite (ReadUvarint_app _ _ _ S E)
  | context [readString ?r] =>
      destruct (readString r) as [[? [? |]] ?] eqn:E; [discriminate H |];
      rewrite (readString_app _ _ _ S E)
  | context [readFieldlist ?r] =>
      destruct (readFieldlist r) as [[? [? |]] ?] eqn:E; [discriminate H |];
      rewrite (readFieldlist_app_any _ _ _ S E)
  end; cbv beta iota zeta in H |- *.

Ltac frame H S := repeat frame_step H S; inversion H; subst; reflexivity.

Lemma readObject_app (r : reader) v r' (S : reader) :
  readObject r = (Some v, None, r') -> readObject (r ++ S) = (Some v, None, r' ++ S).
Proof. unfold readObject. intros H. frame H S. Qed.

Lemma readOtherRoot_app (r : reader) v r' (S : reader) :
  readOtherRoot r = (Some v, None, r') -> readOtherRoot (r ++ S) = (Some v, None, r' ++ S).
Proof. unfold readOtherRoot. intros H. frame H S. Qed.

Lemma readType_app (r : reader) v r' (S : reader) :
  readType r = (Some v, None, r') -> readType (r ++ S) = (Some v, None, r' ++ S).
Proof. unfold readType. intros H. frame H S. Qed.

Lemma readGoroutine_app (r : reader) v r' (S : reader) :
  readGoroutine r = (Some v, None, r') -> readGoroutine (r ++ S) = (Some v, None, r' ++ S).
Proof. unfold readGoroutine. intros H. frame H S. Qed.

Lemma readStackFrame_app (r : reader) v r' (S : reader) :
  readStackFrame r = (Some v, None, r') -> readStackFrame (r ++ S) = (Some v, None, r' ++ S).
Proof. unfold readStackFrame. intros H. frame H S. Qed.

Lemma lift_Some {A : Type} (c : A -> record) x v r' :
  lift c x = (Some v, None, r') -> exists a, v = c a /\ x = (Some a, None, r').
Proof.
  destruct x as [[[a |] e] r1]; simpl; intros H; inversion H; subst.
  exists a. split; reflexivity.
Qed.

Lemma decode_app (d : decoder) (r : reader) v r' (S : reader) :
  decode d r = (Some v, None, r') -> decode d (r ++ S) = (Some v, None, r' ++ S).
Proof.
  destruct d; unfold decode; intros H;
    apply lift_Some in H; destruct H as [a [-> H]].
  - rewrite (readObject_app _ _ _ S H). reflexivity.
  - rewrite (readOtherRoot_app _ _ _ S H). reflexivity.
  - rewrite (readType_app _ _ _ S H). reflexivity.
  - rewrite (readGoroutine_app _ _ _ S H). reflexivity.
  - rewrite (readStackFrame_app _ _ _ S H). reflexivity.
  - rewrite (readFieldlist_app _ _ _ S H). reflexivity.
Qed.

(** ** The decoders against the wire layout *)

(** One read of a layout, taken in the script and in the decoder at once. *)
Ltac script_step H :=
  let E := fresh "E" in
  match type of H with
  | context [ReadUvarint ?r] =>
      destruct (ReadUvarint r) as [[? [? |]] ?] eqn:E
  | context [readString ?r] =>
      destruct (readString r) as [[? [? |]] ?] eqn:E
  | context [scanFieldlist ?n ?a ?r] =>
      destruct (scanFieldlist n a r) as [[? [? |]] ?] eqn:E;
      [ rewrite (readFieldlist_scan_error _ _ _ _ _ _ E)
      | rewrite (readFieldlist_scan_ok _ _ _ _ _ (Nat.lt_succ_diag_r _) E) ]
  end; cbv beta iota zeta in H |- *.

Ltac script_error H :=
  cbn [layout runScript runPrim] in H; unfold readFieldlist;
  repeat (script_step H; [inversion H; subst; reflexivity |]);
  try discriminate H.

Lemma readObject_error (r : reader) vs e r' :
  runScript (layout DObject) r = (vs, Some e, r') ->
  readObject r = (None, Some e, r').
Proof. unfold readObject. intros H. script_error H. Qed.

Lemma readOtherRoot_error (r : reader) vs e r' :
  runScript (layout DOtherRoot) r = (vs, Some e, r') ->
  readOtherRoot r = (None, Some e, r').
Proof. unfold readOtherRoot. intros H. script_error H. Qed.

Lemma readType_error (r : reader) vs e r' :
  runScript (layout DType) r = (vs, Some e, r') ->
  readType r = (None, Some e, r').
Proof. unfold readType. intros H. script_error H. Qed.

Lemma readGoroutine_error (r : reader) vs e r' :
  runScript (layout DGoroutine) r = (vs, Some e, r') ->
  readGoroutine r = (None, Some e, r').
Proof. unfold readGoroutine. intros H. script_error H. Qed.

Lemma readStackFrame_error (r : reader) vs e r' :
  runScript (layout DStackFrame) r = (vs, Some e, r') ->
  readStackFrame r = (None, Some e, r').
Proof. unfold readStackFrame. intros H. script_error H. Qed.

Lemma readFieldlist_error (r : reader) vs e r' :
  runScript (layout DFieldlist) r = (vs, Some e, r') ->
  readFieldlist r = (None, Some e, r').
Proof. intros H. script_error H. Qed.

(** What [readGoroutine] returns when all thirteen reads succeed. *)
Lemma readGoroutine_script (r : reader) vs r' :
  runScript (layout DGoroutine) r = (vs, None, r') ->
  exists a rf id stmt st b1 b2 n wr ctx m d p,
    vs = [RU a; RU rf; RU id; RU stmt; RU st; RU b1; RU b2; RU n; RB wr;
          RU ctx; RU m; RU d; RU p] /\
    0 <= st < 2 ^ 64 /\ 0 <= n < 2 ^ 64 /\
    readGoroutine r =
    (Some (mkGoroutine a rf id stmt (status st) (negb (b1 =? 1)) (negb (b2 =? 1))
             (time_Unix (toInt (n / Second)) (toInt (n mod Second)))
             wr ctx m d p), None, r').
Proof.
  unfold readGoroutine. intros H.
  cbn [layout runScript runPrim] in H.
  repeat (script_step H; [discriminate H |]).
  inversion H; subst.
  do 13 eexists. split; [reflexivity |].
  split; [eapply ReadUvarint_range; eassumption |].
  split; [eapply ReadUvarint_range; eassumption |].
  reflexivity.
Qed.

Lemma time_Unix_normal (sec nsec : Z) :
  0 <= nsec < 1000000000 -> time_Unix sec nsec = mkTime sec nsec.
Proof.
  intros H. unfold time_Unix.
  destruct (Z.ltb_spec nsec 0); [lia |].
  destruct (Z.leb_spec 1000000000 nsec); [lia |]. reflexivity.
Qed.

Lemma started_split (n : Z) :
  0 <= n < 2 ^ 64 ->
  time_Unix (toInt (n / Second)) (toInt (n mod Second)) =
  mkTime (n / 1000000000) (n mod 1000000000).
Proof.
  intros H. unfold Second.
  pose proof (Z.mod_pos_bound n 1000000000 ltac:(lia)) as M.
  assert (D : 0 <= n / 1000000000 < 2 ^ 63).
  { split; [apply Z.div_pos; lia | apply Z.div_lt_upper_bound; lia]. }
  rewrite !toInt_small by lia.
  apply time_Unix_normal. exact M.
Qed.

Lemma toInt_cases (x : Z) :
  0 <= x < 2 ^ 64 ->
  uint64 (toInt x) = x /\
  (x < 2 ^ 63 -> toInt x = x) /\ (2 ^ 63 <= x -> toInt x = x - 2 ^ 64).
Proof.
  intros H. unfold toInt, uint64.
  destruct (Z_lt_ge_dec x (2 ^ 63)) as [L | G].
  - rewrite (Z.mod_small (x + 2 ^ 63)) by lia.
    replace (x + 2 ^ 63 - 2 ^ 63) with x by lia.
    rewrite Z.mod_small by lia. repeat split; lia.
  - replace (x + 2 ^ 63) with ((x - 2 ^ 63) + 1 * 2 ^ 64) by lia.
    rewrite Z_mod_plus_full, (Z.mod_small (x - 2 ^ 63)) by lia.
    replace (x - 2 ^ 63 - 2 ^ 63) with (x + (-1) * 2 ^ 64) by lia.
    rewrite Z_mod_plus_full, Z.mod_small by lia. repeat split; lia.
Qed.

Lemma bytes_Compare_eq (a : list byte) :
  forall b, bytes_Compare a b = 0 <-> a = b.
Proof.
  induction a as [| x a IH]; intros [| y b]; simpl.
  - split; reflexivity.
  - split; discriminate.
  - split; discriminate.
  - destruct (Z.ltb_spec x y); [split; [discriminate | intros E; inversion E; lia] |].
    destruct (Z.ltb_spec y x); [split; [discriminate | intros E; inversion E; lia] |].
    rewrite IH. assert (x = y) by lia. subst.
    split; [intros -> ; reflexivity | intros E; inversion E; reflexivity].
Qed.

Lemma readHeader_short (r : reader) :
  len r < 16 -> readHeader r = (None, []).
Proof.
  intros H. unfold readHeader. change (len header) with 16.
  unfold ReadFull. change (16 <=? 0) with false. cbv beta iota.
  destruct (Z.leb_spec 16 (len r)); [lia |].
  destruct r; reflexivity.
Qed.

Lemma readHeader_mismatch (r : reader) :
  16 <= len r -> firstn 16 r <> header ->
  readHeader r = (Some (errors_New "invalid heapdump"), skipn 16 r).
Proof.
  intros H N. unfold readHeader. change (len header) with 16.
  unfold ReadFull. change (16 <=? 0) with false. cbv beta iota.
  destruct (Z.leb_spec 16 (len r)); [| lia].
  change (Z.to_nat 16) with 16%nat.
  destruct (Z.eqb_spec (bytes_Compare header (firstn 16 r)) 0) as [E | E].
  - apply bytes_Compare_eq in E. congruence.
  - reflexivity.
Qed.

Lemma readFieldlist_loop_error_nil (fuel : nat) :
  forall (acc : list field) (r : reader) v e r',
    readFieldlist_loop fuel acc r = (v, Some e, r') -> v = None.
Proof.
  induction fuel as [| fuel IH]; intros acc r v e r' H; [discriminate |].
  rewrite readFieldlist_loop_S in H.
  destruct (ReadUvarint r) as [[t [e1 |]] r1]; [inversion H; reflexivity |].
  destruct (fieldKind t =? fieldKindEol); [discriminate |].
  destruct (ReadUvarint r1) as [[x [e2 |]] r2]; [inversion H; reflexivity |].
  eapply IH. exact H.
Qed.

(** ** No record next to an error *)

Ltac error_step H :=
  match type of H with
  | context [ReadUvarint ?r] => destruct (ReadUvarint r) as [[? [? |]] ?]
  | context [readString ?r] => destruct (readString r) as [[? [? |]] ?]
  | context [readFieldlist ?r] => destruct (readFieldlist r) as [[? [? |]] ?]
  end; cbv beta iota zeta in H.

Ltac error_nil H :=
  repeat (error_step H; [inversion H; reflexivity |]); discriminate H.

Lemma readObject_error_nil (r : reader) v e r' :
  readObject r = (v, Some e, r') -> v = None.
Proof. unfold readObject. intros H. error_nil H. Qed.

Lemma readOtherRoot_error_nil (r : reader) v e r' :
  readOtherRoot r = (v, Some e, r') -> v = None.
Proof. unfold readOtherRoot. intros H. error_nil H. Qed.

Lemma readType_error_nil (r : reader) v e r' :
  readType r = (v, Some e, r') -> v = None.
Proof. unfold readType. intros H. error_nil H. Qed.

Lemma readGoroutine_error_nil (r : reader) v e r' :
  readGoroutine r = (v, Some e, r') -> v = None.
Proof. unfold readGoroutine. intros H. error_nil H. Qed.

Lemma readStackFrame_error_nil (r : reader) v e r' :
  readStackFrame r = (v, Some e, r') -> v = None.
Proof. unfold readStackFrame. intros H. error_nil H. Qed.

(** Whatever the input, a decoder that returns an error returns [nil]
    with it. *)
Lemma decode_error_nil (d : decoder) (r : reader) v e r' :
  decode d r = (v, Some e, r') -> v = None.
Proof.
  destruct d; unfold decode, lift; intros H.
  - destruct (readObject r) as [[a o] r1] eqn:E. inversion H; subst.
    rewrite (readObject_error_nil _ _ _ _ E). reflexivity.
  - destruct (readOtherRoot r) as [[a o] r1] eqn:E. inversion H; subst.
    rewrite (readOtherRoot_error_nil _ _ _ _ E). reflexivity.
  - destruct (readType r) as [[a o] r1] eqn:E. inversion H; subst.
    rewrite (readType_error_nil _ _ _ _ E). reflexivity.
  - destruct (readGoroutine r) as [[a o] r1] eqn:E. inversion H; subst.
    rewrite (readGoroutine_error_nil _ _ _ _ E). reflexivity.
  - destruct (readStackFrame r) as [[a o] r1] eqn:E. inversion H; subst.
    rewrite (readStackFrame_error_nil _ _ _ _ E). reflexivity.
  - destruct (readFieldlist r) as [[a o] r1] eqn:E. inversion H; subst.
    unfold readFieldlist in E.
    rewrite (readFieldlist_loop_error_nil _ _ _ _ _ _ E). reflexivity.
Qed.

(** On every input where its thirteen reads succeed, [readGoroutine]
    stores in each flag whether the raw value differs from 1. *)
Lemma readGoroutine_flags (r : reader) vs r' (b1 b2 : Z) :
  runScript (layout DGoroutine) r = (vs, None, r') ->
  rawU vs 5 = Some b1 -> rawU vs 6 = Some b2 ->
  exists g, readGoroutine r = (Some g, None, r') /\
            g_isSys g = negb (b1 =? 1) /\ g_isBackground g = negb (b2 =? 1).
Proof.
  intros H H1 H2.
  destruct (readGoroutine_script _ _ _ H)
    as (a & rf & id & stmt & st & c1 & c2 & n & wr & ctx & m & d & p & -> & _ & _ & E).
  cbn in H1, H2. inversion H1; inversion H2; subst.
  eexists. split; [exact E |]. split; reflexivity.
Qed.

(** ** The claims *)

(** C1 (the code departs from it).  A stream shorter than the 16-byte
    magic must be rejected as truncated; [readHeader] returns [nil] on the
    first five bytes of the magic, the read error being dropped. *)
Theorem C1_truncated_header_accepted :
  len truncated_header < len header /\
  readHeader truncated_header = (None, []).
Proof. split; [vm_compute; reflexivity | apply readHeader_short; vm_compute; reflexivity]. Qed.

(** C2 (the code departs from it).  A flag is to be true exactly when its
    raw value is 1; on a record whose two flags are both 1 on the wire,
    [readGoroutine] stores [false] in [isSys] and in [isBackground]. *)
Theorem C2_flags_one_stored_false :
  rawU (wire DGoroutine (goroutine_bytes 0 1 1 0)) 5 = Some 1 /\
  rawU (wire DGoroutine (goroutine_bytes 0 1 1 0)) 6 = Some 1 /\
  exists g, readGoroutine (goroutine_bytes 0 1 1 0) = (Some g, None, []) /\
            g_isSys g = false /\ g_isBackground g = false.
Proof.
  split; [vm_compute; reflexivity |]. split; [vm_compute; reflexivity |].
  eexists. split; [vm_compute; reflexivity |]. split; reflexivity.
Qed.

(** C3.  Every sequence of fields with nonzero kinds, the empty one
    included, written as two uvarints per field and one [End] uvarint, is
    read back by [readFieldlist] in the same order; the [End] marker is
    consumed and is not part of the result, and what follows it stays in
    the source. *)
Theorem C3_fieldlist_round_trip (fs : list field) (S : reader) :
  Forall wf_field fs ->
  readFieldlist (PutFieldlist fs ++ S) = (Some fs, None, S).
Proof.
  intros H. unfold readFieldlist.
  rewrite readFieldlist_loop_PutFieldlist; [reflexivity | exact H | lia].
Qed.

Lemma C3_witness :
  readFieldlist (PutFieldlist [mkfield 1 0; mkfield 3 16] ++ [7]) =
  (Some [mkfield 1 0; mkfield 3 16], None, [7]).
Proof.
  apply C3_fieldlist_round_trip.
  repeat constructor; simpl; lia.
Defined.

(** C4.  Every byte sequence, the empty one included, written as its
    uvarint length followed by its bytes, is read back exactly by
    [readString], and no byte after the declared length is consumed. *)
Theorem C4_length_prefixed_round_trip (b S : list byte) :
  len b < 2 ^ 64 ->
  readString (PutString b ++ S) = (b, None, S).
Proof.
  intros H. unfold readString, PutString. rewrite <- app_assoc.
  rewrite ReadUvarint_PutUvarint by (unfold len in *; lia).
  rewrite ReadFull_exact. reflexivity.
Qed.

Lemma C4_witness :
  readString (PutString [1; 2; 3] ++ [9]) = ([1; 2; 3], None, [9]).
Proof. apply C4_length_prefixed_round_trip. vm_compute. reflexivity. Defined.

(** C5.  For each of the six decoders, when one of the reads of its layout
    fails, the decoder returns that error, leaves the source where the
    failed read left it, and returns [nil]: the values read before the
    failure are not exposed. *)
Theorem C5_error_returns_no_record (d : decoder) (r : reader) vs e r' :
  runScript (layout d) r = (vs, Some e, r') ->
  decode d r = (None, Some e, r').
Proof.
  intros H. destruct d; unfold decode.
  - rewrite (readObject_error _ _ _ _ H). reflexivity.
  - rewrite (readOtherRoot_error _ _ _ _ H). reflexivity.
  - rewrite (readType_error _ _ _ _ H). reflexivity.
  - rewrite (readGoroutine_error _ _ _ _ H). reflexivity.
  - rewrite (readStackFrame_error _ _ _ _ H). reflexivity.
  - rewrite (readFieldlist_error _ _ _ _ H). reflexivity.
Qed.

Lemma C5_witness :
  decode DObject [0; 3; 1] = (None, Some ErrUnexpectedEOF, []).
Proof.
  apply (C5_error_returns_no_record DObject [0; 3; 1] [RU 0]).
  vm_compute. reflexivity.
Defined.

(** C6.  When the first 16 bytes are present and differ from the magic
    literal, [readHeader] fails with its invalid-heapdump error, the
    bad-magic error of the description. *)
Theorem C6_bad_magic (r : reader) :
  16 <= len r -> firstn 16 r <> header ->
  readHeader r = (Some (errors_New "invalid heapdump"), skipn 16 r) /\
  classify (errors_New "invalid heapdump") = BadMagic.
Proof.
  intros H N. split; [apply readHeader_mismatch; assumption | reflexivity].
Qed.

Lemma C6_witness :
  readHeader (repeat 0 16 ++ [1]) = (Some (errors_New "invalid heapdump"), [1]) /\
  classify (errors_New "invalid heapdump") = BadMagic.
Proof.
  apply (C6_bad_magic (repeat 0 16 ++ [1])).
  - vm_compute. discriminate.
  - vm_compute. discriminate.
Defined.

(** C7 (as stated, refuted).  The status 2^63 is a 64-bit value that
    [readGoroutine] accepts, but the stored status, a Go [int], is then
    -2^63 and not the raw value. *)
Lemma C7_status_2_63_not_kept :
  rawU (wire DGoroutine (goroutine_bytes (2 ^ 63) 0 0 0)) 4 = Some (2 ^ 63) /\
  exists g, readGoroutine (goroutine_bytes (2 ^ 63) 0 0 0) = (Some g, None, []) /\
            g_status g = - 2 ^ 63 /\ g_status g <> 2 ^ 63.
Proof.
  split; [vm_compute; reflexivity |].
  eexists. split; [vm_compute; reflexivity |]. split; [reflexivity | discriminate].
Qed.

(** C7 (amended).  Whatever the raw status [st], in {0,1,2,3} or not,
    [readGoroutine] succeeds when its thirteen reads do, and stores [st]
    converted to Go's signed [int]: the raw value itself below 2^63, and
    [st - 2^64] from 2^63 on, the same 64 bits, so that converting the
    stored status back to [uint64] gives [st] in every case. *)
Theorem C7_status_stored_as_int (r : reader) vs r' (st : Z) :
  runScript (layout DGoroutine) r = (vs, None, r') ->
  rawU vs 4 = Some st ->
  exists g, readGoroutine r = (Some g, None, r') /\
            g_status g = toInt st /\
            uint64 (g_status g) = st /\
            (st < 2 ^ 63 -> g_status g = st) /\
            (2 ^ 63 <= st -> g_status g = st - 2 ^ 64).
Proof.
  intros H Hst.
  destruct (readGoroutine_script _ _ _ H)
    as (a & rf & id & stmt & st' & b1 & b2 & n & wr & ctx & m & d & p & -> & Rst & Rn & E).
  cbn in Hst. inversion Hst; subst st'.
  eexists. split; [exact E |]. cbn [g_status]. unfold status.
  split; [reflexivity |]. apply toInt_cases. exact Rst.
Qed.

Lemma C7_witness :
  exists g, readGoroutine (goroutine_bytes 7 0 0 0) = (Some g, None, []) /\
            g_status g = toInt 7 /\
            uint64 (g_status g) = 7 /\
            (7 < 2 ^ 63 -> g_status g = 7) /\
            (2 ^ 63 <= 7 -> g_status g = 7 - 2 ^ 64).
Proof.
  apply (C7_status_stored_as_int (goroutine_bytes 7 0 0 0)
           (wire DGoroutine (goroutine_bytes 7 0 0 0)) [] 7).
  - vm_compute. reflexivity.
  - vm_compute. reflexivity.
Defined.

(** C8.  On a length-prefixed byte string [d] followed by a uvarint [a],
    [readOtherRoot] reads the description first and the address second
    and returns the root with description [d] and target [a]; the witness
    below is the case of "runtime.m0" and 0x1000. *)
Theorem C8_root_description_then_target (d : list byte) (a : Z) (S : reader) :
  len d < 2 ^ 64 -> 0 <= a < 2 ^ 64 ->
  runScript (layout DOtherRoot) (PutString d ++ PutUvarint a ++ S) =
    ([RB d; RU a], None, S) /\
  readOtherRoot (PutString d ++ PutUvarint a ++ S) = (Some (mkroot d a), None, S).
Proof.
  intros Hd Ha. cbn [layout runScript runPrim]. unfold readOtherRoot.
  rewrite readString_PutString by exact Hd.
  rewrite ReadUvarint_PutUvarint by exact Ha.
  split; reflexivity.
Qed.

Lemma C8_witness :
  runScript (layout DOtherRoot) (PutString (str "runtime.m0") ++ PutUvarint 4096 ++ []) =
    ([RB (str "runtime.m0"); RU 4096], None, []) /\
  readOtherRoot (PutString (str "runtime.m0") ++ PutUvarint 4096 ++ []) =
    (Some (mkroot (str "runtime.m0") 4096), None, []).
Proof.
  apply C8_root_description_then_target.
  - vm_compute. reflexivity.
  - lia.
Defined.

(** C9.  The start time stored by [readGoroutine] is built from the raw
    timestamp [n] as [n div 1000000000] seconds and [n mod 1000000000]
    nanoseconds. *)
Theorem C9_started_seconds_and_nanoseconds (r : reader) vs r' (n : Z) :
  runScript (layout DGoroutine) r = (vs, None, r') ->
  rawU vs 7 = Some n ->
  exists g, readGoroutine r = (Some g, None, r') /\
            g_started g = time_Unix (n / 1000000000) (n mod 1000000000) /\
            g_started g = mkTime (n / 1000000000) (n mod 1000000000).
Proof.
  intros H Hn.
  destruct (readGoroutine_script _ _ _ H)
    as (a & rf & id & stmt & st & b1 & b2 & n' & wr & ctx & m & d & p & -> & Rst & Rn & E).
  cbn in Hn. inversion Hn; subst n'.
  eexists. split; [exact E |]. cbn [g_started].
  rewrite started_split by exact Rn. split; [| reflexivity].
  symmetry. apply time_Unix_normal. apply Z.mod_pos_bound. lia.
Qed.

Lemma C9_witness :
  exists g, readGoroutine (goroutine_bytes 0 0 0 1500000000) = (Some g, None, []) /\
            g_started g = time_Unix (1500000000 / 1000000000) (1500000000 mod 1000000000) /\
            g_started g = mkTime (1500000000 / 1000000000) (1500000000 mod 1000000000).
Proof.
  apply (C9_started_seconds_and_nanoseconds (goroutine_bytes 0 0 0 1500000000)
           (wire DGoroutine (goroutine_bytes 0 0 0 1500000000)) [] 1500000000).
  - vm_compute. reflexivity.
  - vm_compute. reflexivity.
Defined.

(** C10.  A decoder reads the bytes of its record and nothing more: when
    it succeeds on [E] using up all of [E], it succeeds on [E ++ S] with
    the same result and leaves exactly [S] in the source.  This holds for
    the six decoders and for [readString]. *)
Theorem C10_decoders_leave_the_suffix (d : decoder) (E S : list byte) v b :
  (decode d E = (Some v, None, []) -> decode d (E ++ S) = (Some v, None, S)) /\
  (readString E = (b, None, []) -> readString (E ++ S) = (b, None, S)).
Proof.
  split; intros H.
  - apply (decode_app d E v [] S H).
  - apply (readString_app E b [] S H).
Qed.

Lemma C10_witness :
  decode DObject (object_bytes ++ [1; 2]) =
  (Some (RecObject (mkobject 8192 [1; 2; 3] (Some [mkfield fieldKindPtr 0]))), None, [1; 2]).
Proof.
  apply (proj1 (C10_decoders_leave_the_suffix DObject object_bytes [1; 2]
                  (RecObject (mkobject 8192 [1; 2; 3] (Some [mkfield fieldKindPtr 0]))) [])).
  vm_compute. reflexivity.
Defined.

(** * Supporting lemmas for the further properties *)


(** ** Cutting the source short *)

Lemma ReadUvarint_loop_cut (n : nat) (i x s : Z) : cut_ok (ReadUvarint_loop n i x s).
Proof.
  revert i x s. induction n as [| n IH]; intros i x s P T v r' H.
  - discriminate H.
  - destruct P as [| b P].
    + right. cbn [ReadUvarint_loop ReadByte]. do 2 eexists. split; [reflexivity |].
      destruct ((0 <? i) && error_eqb EOF EOF); reflexivity.
    + cbn [app] in H. rewrite ReadUvarint_loop_cons in *.
      destruct (b <? 128).
      * left. case_if H; inversion H; subst. exists P. split; reflexivity.
      * apply IH. exact H.
Qed.

Lemma ReadUvarint_cut : cut_ok ReadUvarint.
Proof. apply ReadUvarint_loop_cut. Qed.

Lemma ReadFull_cut (n : Z) : cut_ok (ReadFull n).
Proof.
  intros P T v r' H. unfold ReadFull, len in *.
  destruct (Z.leb_spec n 0) as [L0 | G0].
  - left. inversion H; subst. exists P. split; reflexivity.
  - destruct (Z.leb_spec n (Z.of_nat (List.length (P ++ T)))) as [L | G].
    + inversion H; subst.
      destruct (Z.leb_spec n (Z.of_nat (List.length P))) as [LP | GP].
      * left. exists (skipn (Z.to_nat n) P).
        rewrite firstn_app, skipn_app.
        replace (Z.to_nat n - List.length P)%nat with 0%nat by lia.
        cbn [firstn skipn]. rewrite app_nil_r. split; reflexivity.
      * right. destruct P; do 2 eexists; split; reflexivity.
    + destruct (P ++ T); discriminate H.
Qed.

Lemma readString_cut : cut_ok readString.
Proof.
  intros P T v r' H. unfold readString in *.
  destruct (ReadUvarint (P ++ T)) as [[n [e |]] r1] eqn:E1; [discriminate H |].
  destruct (ReadUvarint_cut _ _ _ _ E1) as [(P1 & -> & E1') | (v' & e & E1' & C)];
    rewrite E1'.
  - destruct (ReadFull n (P1 ++ T)) as [[buf [e |]] r2] eqn:E2; [discriminate H |].
    inversion H; subst.
    destruct (ReadFull_cut n _ _ _ _ E2) as [(P2 & -> & E2') | (v' & e & E2' & C)];
      rewrite E2'.
    + left. exists P2. split; reflexivity.
    + right. do 2 eexists. split; [reflexivity | exact C].
  - right. do 2 eexists. split; [reflexivity | exact C].
Qed.

Lemma scanFieldlist_S (fuel : nat) (acc : list field) (r : reader) :
  scanFieldlist (S fuel) acc r =
  match ReadUvarint r with
  | (_, Some e, r1) => (acc, Some e, r1)
  | (k, None, r1) =>
      if k =? 0 then (acc, None, r1)
      else match ReadUvarint r1 with
           | (_, Some e, r2) => (acc, Some e, r2)
           | (v, None, r2) => scanFieldlist fuel (acc ++ [mkfield (toInt k) v]) r2
           end
  end.
Proof. reflexivity. Qed.

Lemma scanFieldlist_cut (fuel : nat) :
  forall (fuel' : nat) (acc : list field) (P T : list byte) l r',
    (List.length (P ++ T) < fuel)%nat -> (List.length P < fuel')%nat ->
    scanFieldlist fuel acc (P ++ T) = (l, None, r') ->
    (exists P', r' = P' ++ T /\ scanFieldlist fuel' acc P = (l, None, P')) \/
    (exists l' e, scanFieldlist fuel' acc P = (l', Some e, []) /\ classify e = Truncated).
Proof.
  induction fuel as [| fuel IH]; intros fuel' acc P T l r' Hf Hf' H; [lia |].
  destruct fuel' as [| fuel']; [lia |].
  rewrite scanFieldlist_S in *.
  destruct (ReadUvarint (P ++ T)) as [[k [e |]] r1] eqn:E1; [discriminate H |].
  destruct (ReadUvarint_cut _ _ _ _ E1) as [(P1 & -> & E1') | (v' & e & E1' & C)];
    rewrite E1'; [| right; do 2 eexists; split; [reflexivity | exact C]].
  destruct (k =? 0).
  - left. inversion H; subst. exists P1. split; reflexivity.
  - destruct (ReadUvarint (P1 ++ T)) as [[v [e |]] r2] eqn:E2; [discriminate H |].
    destruct (ReadUvarint_cut _ _ _ _ E2) as [(P2 & -> & E2') | (v' & e & E2' & C)];
      rewrite E2'; [| right; do 2 eexists; split; [reflexivity | exact C]].
    apply ReadUvarint_length in E1, E2, E1', E2'.
    eapply IH; [| | exact H]; lia.
Qed.

Lemma runPrim_cut (p : prim) : cut_ok (runPrim p).
Proof.
  intros P T v r' H. destruct p; cbn [runPrim] in *.
  - destruct (ReadUvarint (P ++ T)) as [[x [e |]] r1] eqn:E; inversion H; subst.
    destruct (ReadUvarint_cut _ _ _ _ E) as [(P1 & -> & E') | (v' & e & E' & C)];
      rewrite E'.
    + left. exists P1. split; reflexivity.
    + right. do 2 eexists. split; [reflexivity | exact C].
  - destruct (readString (P ++ T)) as [[x [e |]] r1] eqn:E; inversion H; subst.
    destruct (readString_cut _ _ _ _ E) as [(P1 & -> & E') | (v' & e & E' & C)];
      rewrite E'.
    + left. exists P1. split; reflexivity.
    + right. do 2 eexists. split; [reflexivity | exact C].
  - destruct (scanFieldlist (S (List.length (P ++ T))) [] (P ++ T))
      as [[x [e |]] r1] eqn:E; inversion H; subst.
    destruct (scanFieldlist_cut _ (S (List.length P)) _ _ _ _ _
                (Nat.lt_succ_diag_r _) (Nat.lt_succ_diag_r _) E)
      as [(P1 & -> & E') | (v' & e & E' & C)]; rewrite E'.
    + left. exists P1. split; reflexivity.
    + right. do 2 eexists. split; [reflexivity | exact C].
Qed.

Lemma runScript_cut (sc : list prim) : cut_ok (runScript sc).
Proof.
  induction sc as [| p sc IH]; intros P T vs r' H; cbn [runScript] in *.
  - left. inversion H; subst. exists P. split; reflexivity.
  - destruct (runPrim p (P ++ T)) as [[v [e |]] r1] eqn:E; [discriminate H |].
    destruct (runPrim_cut p _ _ _ _ E) as [(P1 & -> & E') | (v' & e & E' & C)];
      rewrite E'; [| right; do 2 eexists; split; [reflexivity | exact C]].
    destruct (runScript sc (P1 ++ T)) as [[vs1 [e |]] r2] eqn:E2; inversion H; subst.
    destruct (IH _ _ _ _ E2) as [(P2 & -> & E2') | (v' & e & E2' & C)]; rewrite E2'.
    + left. exists P2. split; reflexivity.
    + right. do 2 eexists. split; [reflexivity | exact C].
Qed.

(** ** The bytes a read uses *)

Lemma ReadUvarint_loop_split (n : nat) (i x s : Z) : split_ok (ReadUvarint_loop n i x s).
Proof.
  revert i x s. induction n as [| n IH]; intros i x s r v r' H.
  - discriminate H.
  - destruct r as [| b r]; [discriminate H |].
    rewrite ReadUvarint_loop_cons in H.
    destruct (b <? 128) eqn:B.
    + exists [b]. rewrite ReadUvarint_loop_cons, B.
      case_if H; inversion H; subst; split; reflexivity.
    + destruct (IH _ _ _ _ _ _ H) as (c & -> & E).
      exists (b :: c). rewrite ReadUvarint_loop_cons, B. split; [reflexivity | exact E].
Qed.

Lemma ReadUvarint_split : split_ok ReadUvarint.
Proof. apply ReadUvarint_loop_split. Qed.

Lemma ReadFull_split (n : Z) : split_ok (ReadFull n).
Proof.
  intros r v r' H. unfold ReadFull, len in *.
  destruct (Z.leb_spec n 0) as [L0 | G0].
  - inversion H; subst. exists []. split; reflexivity.
  - destruct (Z.leb_spec n (Z.of_nat (List.length r))) as [L | G].
    + inversion H; subst. exists (firstn (Z.to_nat n) r).
      split; [symmetry; apply firstn_skipn |].
      rewrite length_firstn.
      destruct (Z.leb_spec n (Z.of_nat (Nat.min (Z.to_nat n) (List.length r)))); [| lia].
      rewrite firstn_firstn, Nat.min_id.
      rewrite skipn_firstn_comm, Nat.sub_diag. reflexivity.
    + destruct r; discriminate H.
Qed.

Lemma readString_split : split_ok readString.
Proof.
  intros r v r' H. unfold readString in H.
  destruct (ReadUvarint r) as [[n [e |]] r1] eqn:E1; [discriminate H |].
  destruct (ReadFull n r1) as [[buf [e |]] r2] eqn:E2; [discriminate H |].
  inversion H; subst.
  destruct (ReadUvarint_split _ _ _ E1) as (c1 & -> & E1').
  destruct (ReadFull_split n _ _ _ E2) as (c2 & -> & E2').
  exists (c1 ++ c2). split; [apply app_assoc |].
  unfold readString.
  rewrite (ReadUvarint_app _ _ _ c2 E1'). cbn [app]. rewrite E2'. reflexivity.
Qed.

Lemma scanFieldlist_app (fuel : nat) :
  forall (fuel' : nat) (acc : list field) (r : reader) l r' (S : reader),
    (List.length r < fuel)%nat -> (List.length (r ++ S) < fuel')%nat ->
    scanFieldlist fuel acc r = (l, None, r') ->
    scanFieldlist fuel' acc (r ++ S) = (l, None, r' ++ S).
Proof.
  induction fuel as [| fuel IH]; intros fuel' acc r l r' S H1 H2 H; [lia |].
  destruct fuel' as [| fuel']; [lia |]. rewrite scanFieldlist_S in *.
  destruct (ReadUvarint r) as [[k [e |]] r1] eqn:E1; [discriminate H |].
  rewrite (ReadUvarint_app _ _ _ S E1).
  destruct (k =? 0).
  - inversion H; subst. reflexivity.
  - destruct (ReadUvarint r1) as [[v [e |]] r2] eqn:E2; [discriminate H |].
    rewrite (ReadUvarint_app _ _ _ S E2).
    apply ReadUvarint_length in E1, E2. rewrite length_app in H2.
    apply IH; [lia | rewrite length_app; lia | exact H].
Qed.

Lemma scanFieldlist_split (fuel : nat) :
  forall (acc : list field) (r : reader) l r',
    (List.length r < fuel)%nat ->
    scanFieldlist fuel acc r = (l, None, r') ->
    exists c, r = c ++ r' /\
              forall fuel', (List.length c < fuel')%nat ->
                            scanFieldlist fuel' acc c = (l, None, []).
Proof.
  induction fuel as [| fuel IH]; intros acc r l r' Hf H; [lia |].
  rewrite scanFieldlist_S in H.
  destruct (ReadUvarint r) as [[k [e |]] r1] eqn:E1; [discriminate H |].
  destruct (ReadUvarint_split _ _ _ E1) as (c1 & -> & E1').
  destruct (k =? 0) eqn:K.
  - inversion H; subst. exists c1. split; [reflexivity |].
    intros [| fuel'] Hc; [lia |]. rewrite scanFieldlist_S, E1', K. reflexivity.
  - destruct (ReadUvarint r1) as [[v [e |]] r2] eqn:E2; [discriminate H |].
    destruct (ReadUvarint_split _ _ _ E2) as (c2 & -> & E2').
    apply ReadUvarint_length in E1. pose proof (ReadUvarint_length _ _ _ E2) as L2.
    assert (L3 : (List.length r2 < fuel)%nat) by lia.
    destruct (IH _ _ _ _ L3 H) as (c3 & -> & E3).
    exists (c1 ++ c2 ++ c3). split; [rewrite <- !app_assoc; reflexivity |].
    intros [| fuel'] Hc; [lia |]. rewrite scanFieldlist_S.
    rewrite (ReadUvarint_app _ _ _ (c2 ++ c3) E1'), K. cbn [app].
    rewrite (ReadUvarint_app _ _ _ c3 E2'). cbn [app].
    apply E3. apply ReadUvarint_length in E1'. rewrite !length_app in Hc.
    cbn [List.length] in E1'. lia.
Qed.

Lemma runPrim_app (p : prim) (r : reader) v r' (S : reader) :
  runPrim p r = (v, None, r') -> runPrim p (r ++ S) = (v, None, r' ++ S).
Proof.
  destruct p; cbn [runPrim]; intros H.
  - destruct (ReadUvarint r) as [[x [e |]] r1] eqn:E; inversion H; subst.
    rewrite (ReadUvarint_app _ _ _ S E). reflexivity.
  - destruct (readString r) as [[x [e |]] r1] eqn:E; inversion H; subst.
    rewrite (readString_app _ _ _ S E). reflexivity.
  - destruct (scanFieldlist (Datatypes.S (List.length r)) [] r)
      as [[x [e |]] r1] eqn:E; inversion H; subst.
    rewrite (scanFieldlist_app _ (Datatypes.S (List.length (r ++ S))) _ _ _ _ S
               (Nat.lt_succ_diag_r _) (Nat.lt_succ_diag_r _) E). reflexivity.
Qed.

Lemma runPrim_split (p : prim) : split_ok (runPrim p).
Proof.
  intros r v r' H. destruct p; cbn [runPrim] in *.
  - destruct (ReadUvarint r) as [[x [e |]] r1] eqn:E; inversion H; subst.
    destruct (ReadUvarint_split _ _ _ E) as (c & -> & E').
    exists c. rewrite E'. split; reflexivity.
  - destruct (readString r) as [[x [e |]] r1] eqn:E; inversion H; subst.
    destruct (readString_split _ _ _ E) as (c & -> & E').
    exists c. rewrite E'. split; reflexivity.
  - destruct (scanFieldlist (S (List.length r)) [] r) as [[x [e |]] r1] eqn:E;
      inversion H; subst.
    destruct (scanFieldlist_split _ _ _ _ _ (Nat.lt_succ_diag_r _) E) as (c & -> & E').
    exists c. rewrite (E' _ (Nat.lt_succ_diag_r _)). split; reflexivity.
Qed.

Lemma runScript_split (sc : list prim) : split_ok (runScript sc).
Proof.
  induction sc as [| p sc IH]; intros r vs r' H; cbn [runScript] in *.
  - inversion H; subst. exists []. split; reflexivity.
  - destruct (runPrim p r) as [[v [e |]] r1] eqn:E; [discriminate H |].
    destruct (runScript sc r1) as [[vs1 [e |]] r2] eqn:E2; inversion H; subst.
    destruct (runPrim_split p _ _ _ E) as (c1 & -> & E').
    destruct (IH _ _ _ E2) as (c2 & -> & E2').
    exists (c1 ++ c2). split; [apply app_assoc |].
    rewrite (runPrim_app _ _ _ _ c2 E'). cbn [app]. rewrite E2'. reflexivity.
Qed.

(** ** Decoders and layouts, both ways *)

Ltac script_ok H :=
  cbn [layout runScript runPrim] in H; unfold readFieldlist;
  repeat (script_step H; [discriminate H |]);
  inversion H; subst; eexists; reflexivity.

Lemma readObject_ok (r : reader) vs r' :
  runScript (layout DObject) r = (vs, None, r') ->
  exists v, readObject r = (Some v, None, r').
Proof. unfold readObject. intros H. script_ok H. Qed.

Lemma readOtherRoot_ok (r : reader) vs r' :
  runScript (layout DOtherRoot) r = (vs, None, r') ->
  exists v, readOtherRoot r = (Some v, None, r').
Proof. unfold readOtherRoot. intros H. script_ok H. Qed.

Lemma readType_ok (r : reader) vs r' :
  runScript (layout DType) r = (vs, None, r') ->
  exists v, readType r = (Some v, None, r').
Proof. unfold readType. intros H. script_ok H. Qed.

Lemma readGoroutine_ok (r : reader) vs r' :
  runScript (layout DGoroutine) r = (vs, None, r') ->
  exists v, readGoroutine r = (Some v, None, r').
Proof. unfold readGoroutine. intros H. script_ok H. Qed.

Lemma readStackFrame_ok (r : reader) vs r' :
  runScript (layout DStackFrame) r = (vs, None, r') ->
  exists v, readStackFrame r = (Some v, None, r').
Proof. unfold readStackFrame. intros H. script_ok H. Qed.

Lemma readFieldlist_ok (r : reader) vs r' :
  runScript (layout DFieldlist) r = (vs, None, r') ->
  exists v, readFieldlist r = (Some v, None, r').
Proof. intros H. script_ok H. Qed.

Lemma decode_script_error (d : decoder) (r : reader) vs e r' :
  runScript (layout d) r = (vs, Some e, r') -> decode d r = (None, Some e, r').
Proof.
  intros H. destruct d; unfold decode.
  - rewrite (readObject_error _ _ _ _ H). reflexivity.
  - rewrite (readOtherRoot_error _ _ _ _ H). reflexivity.
  - rewrite (readType_error _ _ _ _ H). reflexivity.
  - rewrite (readGoroutine_error _ _ _ _ H). reflexivity.
  - rewrite (readStackFrame_error _ _ _ _ H). reflexivity.
  - rewrite (readFieldlist_error _ _ _ _ H). reflexivity.
Qed.

Lemma decode_script_ok (d : decoder) (r : reader) vs r' :
  runScript (layout d) r = (vs, None, r') ->
  exists v, decode d r = (Some v, None, r').
Proof.
  intros H. destruct d; unfold decode.
  - destruct (readObject_ok _ _ _ H) as [v ->]. eexists; reflexivity.
  - destruct (readOtherRoot_ok _ _ _ H) as [v ->]. eexists; reflexivity.
  - destruct (readType_ok _ _ _ H) as [v ->]. eexists; reflexivity.
  - destruct (readGoroutine_ok _ _ _ H) as [v ->]. eexists; reflexivity.
  - destruct (readStackFrame_ok _ _ _ H) as [v ->]. eexists; reflexivity.
  - destruct (readFieldlist_ok _ _ _ H) as [v ->]. eexists; reflexivity.
Qed.

Lemma decode_ok_script (d : decoder) (r : reader) v r' :
  decode d r = (Some v, None, r') ->
  exists vs, runScript (layout d) r = (vs, None, r').
Proof.
  intros H. destruct (runScript (layout d) r) as [[vs [e |]] r1] eqn:E.
  - rewrite (decode_script_error _ _ _ _ _ E) in H. discriminate H.
  - destruct (decode_script_ok _ _ _ _ E) as [v' E']. rewrite E' in H.
    inversion H; subst. exists vs. reflexivity.
Qed.


Lemma decode_nil (d : decoder) : decode d [] = (None, Some EOF, []).
Proof. destruct d; reflexivity. Qed.

(** ** The errors of the reads *)






(** ** Helpers for the record round trips *)

Lemma readFieldlist_PutFieldlist (fs : list field) (S : reader) :
  Forall wf_field fs ->
  readFieldlist (PutFieldlist fs ++ S) = (Some fs, None, S).
Proof.
  intros H. unfold readFieldlist.
  rewrite readFieldlist_loop_PutFieldlist; [reflexivity | exact H | lia].
Qed.

Ltac round_trip :=
  repeat (first [ rewrite ReadUvarint_PutUvarint by assumption
                | rewrite readString_PutString by assumption
                | rewrite readFieldlist_PutFieldlist by assumption ];
          cbv beta iota zeta).

Ltac split_Forall :=
  repeat match goal with
         | H : Forall _ (_ :: _) |- _ => inversion H; clear H; subst
         | H : Forall _ [] |- _ => clear H
         | H : in_uint64 _ |- _ => unfold in_uint64 in H
         end.

Lemma readHeader_magic (S : reader) : readHeader (header ++ S) = (None, S).
Proof.
  unfold readHeader. rewrite ReadFull_exact.
  destruct (Z.eqb_spec (bytes_Compare header header) 0) as [_ | N]; [reflexivity |].
  exfalso. apply N. apply bytes_Compare_eq. reflexivity.
Qed.

Lemma toInt_range (x : Z) : - 2 ^ 63 <= toInt x < 2 ^ 63.
Proof.
  unfold toInt. pose proof (Z.mod_pos_bound (x + 2 ^ 63) (2 ^ 64) ltac:(lia)). lia.
Qed.

Lemma readFieldlist_loop_wf (fuel : nat) :
  forall (acc : list field) (r : reader) fs r',
    Forall wf_field acc ->
    readFieldlist_loop fuel acc r = (Some fs, None, r') -> Forall wf_field fs.
Proof.
  induction fuel as [| fuel IH]; intros acc r fs r' Hacc H; [discriminate H |].
  rewrite readFieldlist_loop_S in H.
  destruct (ReadUvarint r) as [[t [e |]] r1] eqn:E1; [discriminate H |].
  destruct (Z.eqb_spec (fieldKind t) fieldKindEol) as [K | K].
  - inversion H; subst. exact Hacc.
  - destruct (ReadUvarint r1) as [[v [e |]] r2] eqn:E2; [discriminate H |].
    eapply IH; [| exact H].
    apply Forall_app. split; [exact Hacc |].
    constructor; [| constructor].
    unfold wf_field. cbn [field_kind field_ptr]. split; [apply toInt_range |].
    split; [exact K | eapply ReadUvarint_range; exact E2].
Qed.

(** * Further properties of the decoders *)

(** X1.  [readHeader] accepts a source that starts with the magic and
    takes exactly its 16 bytes: what follows is left in the source. *)
Theorem X1_readHeader_accepts_magic (S : reader) :
  readHeader (header ++ S) = (None, S).
Proof.
  unfold readHeader. rewrite ReadFull_exact.
  destruct (Z.eqb_spec (bytes_Compare header header) 0) as [_ | N]; [reflexivity |].
  exfalso. apply N. apply bytes_Compare_eq. reflexivity.
Qed.

(** X2.  On every source [readHeader] takes the first 16 bytes, or all of
    them when there are fewer; its only error is the invalid-heapdump
    one, and it returns it exactly when 16 bytes are there and differ
    from the magic. *)
Theorem X2_readHeader_characterised (r : reader) :
  snd (readHeader r) = skipn 16 r /\
  (fst (readHeader r) = None \/
   fst (readHeader r) = Some (errors_New "invalid heapdump")) /\
  (fst (readHeader r) <> None <-> 16 <= len r /\ firstn 16 r <> header).
Proof.
  destruct (Z_lt_ge_dec (len r) 16) as [L | G].
  - rewrite readHeader_short by exact L. cbn [fst snd].
    split; [symmetry; apply skipn_all2; unfold len in L; lia |].
    split; [left; reflexivity |].
    split; [intros N; exfalso; apply N; reflexivity | intros [H _]; lia].
  - destruct (list_eq_dec Z.eq_dec (firstn 16 r) header) as [E | N].
    + assert (RH : readHeader r = (None, skipn 16 r)).
      { rewrite <- (firstn_skipn 16 r) at 1. rewrite E. apply readHeader_magic. }
      rewrite RH. cbn [fst snd]. split; [reflexivity |].
      split; [left; reflexivity |].
      split; [intros N; exfalso; apply N; reflexivity | intros [_ N]; contradiction].
    + rewrite readHeader_mismatch by (try lia; exact N). cbn [fst snd].
      split; [reflexivity |]. split; [right; reflexivity |].
      split; [intros _; split; [lia | exact N] | intros _; discriminate].
Qed.

(** X3.  A heap object written as its address, its length-prefixed
    contents and its field list is read back by [readObject] with the
    three parts in that order, the field list a non-nil slice, and the
    bytes after the record left in the source. *)
Theorem X3_readObject_round_trip (addr : Z) (contents : list byte)
    (fs : list field) (S : reader) :
  in_uint64 addr -> len contents < 2 ^ 64 -> Forall wf_field fs ->
  readObject (PutUvarint addr ++ PutString contents ++ PutFieldlist fs ++ S) =
  (Some (mkobject addr contents (Some fs)), None, S).
Proof.
  intros Ha Hc Hf. unfold readObject. split_Forall. round_trip. reflexivity.
Qed.

Lemma X3_witness :
  readObject (PutUvarint 8192 ++ PutString [1; 2; 3] ++
              PutFieldlist [mkfield fieldKindPtr 0] ++ [0]) =
  (Some (mkobject 8192 [1; 2; 3] (Some [mkfield fieldKindPtr 0])), None, [0]).
Proof.
  apply X3_readObject_round_trip.
  - unfold in_uint64. lia.
  - vm_compute. reflexivity.
  - repeat constructor; cbv [field_kind field_ptr fieldKindPtr fieldKindIface]; lia.
Defined.

(** X4.  A type record written as address, size, length-prefixed name
    and pointer flag is read back by [readType] in that order; the flag
    is true for every nonzero raw value, not only for 1. *)
Theorem X4_readType_round_trip (addr size isptr : Z) (name : list byte) (S : reader) :
  Forall in_uint64 [addr; size; isptr] -> len name < 2 ^ 64 ->
  readType (PutUvarint addr ++ PutUvarint size ++ PutString name ++
            PutUvarint isptr ++ S) =
  (Some (mkType addr size name (negb (isptr =? 0))), None, S).
Proof.
  intros Hu Hn. unfold readType. split_Forall. round_trip. reflexivity.
Qed.

Lemma X4_witness :
  readType (PutUvarint 4096 ++ PutUvarint 24 ++ PutString (str "main.T") ++
            PutUvarint 2 ++ [7]) =
  (Some (mkType 4096 24 (str "main.T") true), None, [7]).
Proof.
  apply (X4_readType_round_trip 4096 24 2 (str "main.T") [7]).
  - repeat constructor; unfold in_uint64; lia.
  - vm_compute. reflexivity.
Defined.

(** X5.  A stack frame written as its nine parts in the order of the
    struct (three uvarints, the contents, three program counters, the
    name, the field list) is read back by [readStackFrame] part for
    part, and the bytes after the record are left in the source. *)
Theorem X5_readStackFrame_round_trip (ptr depth childPtr startPC currentPC continuePC : Z)
    (content name : list byte) (fs : list field) (S : reader) :
  Forall in_uint64 [ptr; depth; childPtr; startPC; currentPC; continuePC] ->
  len content < 2 ^ 64 -> len name < 2 ^ 64 -> Forall wf_field fs ->
  readStackFrame (PutUvarint ptr ++ PutUvarint depth ++ PutUvarint childPtr ++
                  PutString content ++ PutUvarint startPC ++ PutUvarint currentPC ++
                  PutUvarint continuePC ++ PutString name ++ PutFieldlist fs ++ S) =
  (Some (mkstackFrame ptr depth childPtr content startPC currentPC continuePC
           name (Some fs)), None, S).
Proof.
  intros Hu Hc Hn Hf. unfold readStackFrame. split_Forall. round_trip. reflexivity.
Qed.

Lemma X5_witness :
  readStackFrame (PutUvarint 49152 ++ PutUvarint 1 ++ PutUvarint 0 ++
                  PutString [9; 9] ++ PutUvarint 4198400 ++ PutUvarint 4198417 ++
                  PutUvarint 4198420 ++ PutString (str "main.main") ++
                  PutFieldlist [mkfield fieldKindIface 8] ++ []) =
  (Some (mkstackFrame 49152 1 0 [9; 9] 4198400 4198417 4198420 (str "main.main")
           (Some [mkfield fieldKindIface 8])), None, []).
Proof.
  apply X5_readStackFrame_round_trip.
  - repeat constructor; unfold in_uint64; lia.
  - vm_compute. reflexivity.
  - vm_compute. reflexivity.
  - repeat constructor; cbv [field_kind field_ptr fieldKindPtr fieldKindIface]; lia.
Defined.

(** X6.  A goroutine record written as its thirteen parts in the order
    of the struct is read back by [readGoroutine] part for part: the
    status as a signed [int], each flag as "raw value is not 1", the
    start time split into seconds and nanoseconds, the others
    unchanged. *)
Theorem X6_readGoroutine_round_trip (a rf id stmt st b1 b2 n ctx m d p : Z)
    (wr : list byte) (S : reader) :
  Forall in_uint64 [a; rf; id; stmt; st; b1; b2; n; ctx; m; d; p] ->
  len wr < 2 ^ 64 ->
  readGoroutine (PutUvarint a ++ PutUvarint rf ++ PutUvarint id ++ PutUvarint stmt ++
                 PutUvarint st ++ PutUvarint b1 ++ PutUvarint b2 ++ PutUvarint n ++
                 PutString wr ++ PutUvarint ctx ++ PutUvarint m ++ PutUvarint d ++
                 PutUvarint p ++ S) =
  (Some (mkGoroutine a rf id stmt (toInt st) (negb (b1 =? 1)) (negb (b2 =? 1))
           (mkTime (n / 1000000000) (n mod 1000000000)) wr ctx m d p), None, S).
Proof.
  intros Hu Hw. unfold readGoroutine.
  assert (Hn : 0 <= n < 2 ^ 64).
  { repeat match goal with
           | H : Forall _ (_ :: _) |- _ => inversion_clear H
           end. assumption. }
  split_Forall. round_trip.
  rewrite started_split by exact Hn. reflexivity.
Qed.

Lemma X6_witness :
  readGoroutine (PutUvarint 1024 ++ PutUvarint 2048 ++ PutUvarint 17 ++ PutUvarint 5 ++
                 PutUvarint 3 ++ PutUvarint 0 ++ PutUvarint 1 ++ PutUvarint 2500000001 ++
                 PutString (str "chan receive") ++ PutUvarint 0 ++ PutUvarint 4096 ++
                 PutUvarint 0 ++ PutUvarint 0 ++ [0]) =
  (Some (mkGoroutine 1024 2048 17 5 (toInt 3) (negb (0 =? 1)) (negb (1 =? 1))
           (mkTime (2500000001 / 1000000000) (2500000001 mod 1000000000))
           (str "chan receive") 0 4096 0 0), None, [0]).
Proof.
  apply (X6_readGoroutine_round_trip 1024 2048 17 5 3 0 1 2500000001 0 4096 0 0
           (str "chan receive") [0]).
  - repeat constructor; unfold in_uint64; lia.
  - vm_compute. reflexivity.
Defined.

(** X7.  On every input on which the thirteen reads of a goroutine
    record succeed, including ones with unusual varint encodings,
    [readGoroutine] stores in [isSys] and [isBackground] whether the raw
    value differs from 1: a raw 1 gives false, every other value true. *)
Theorem X7_goroutine_flags_not_one (r : reader) vs r' (b1 b2 : Z) :
  runScript (layout DGoroutine) r = (vs, None, r') ->
  rawU vs 5 = Some b1 -> rawU vs 6 = Some b2 ->
  exists g, readGoroutine r = (Some g, None, r') /\
            g_isSys g = negb (b1 =? 1) /\ g_isBackground g = negb (b2 =? 1).
Proof.
  intros H H1 H2.
  destruct (readGoroutine_script _ _ _ H)
    as (a & rf & id & stmt & st & c1 & c2 & n & wr & ctx & m & d & p & -> & _ & _ & E).
  cbn in H1, H2. inversion H1; inversion H2; subst.
  eexists. split; [exact E |]. split; reflexivity.
Qed.

Lemma X7_witness :
  exists g, readGoroutine (goroutine_bytes 0 0 2 0) = (Some g, None, []) /\
            g_isSys g = negb (0 =? 1) /\ g_isBackground g = negb (2 =? 1).
Proof.
  apply (X7_goroutine_flags_not_one (goroutine_bytes 0 0 2 0)
           (wire DGoroutine (goroutine_bytes 0 0 2 0)) [] 0 2).
  - vm_compute. reflexivity.
  - vm_compute. reflexivity.
  - vm_compute. reflexivity.
Defined.



(** X9.  Truncation is detected: when a decoder succeeds on a source
    using all of it, then on every proper prefix of that source it
    returns no record and a truncation error ([io.EOF] or
    [io.ErrUnexpectedEOF]), having read the prefix to its end. *)
Theorem X9_proper_prefix_is_rejected (d : decoder) (P T : list byte) v :
  decode d (P ++ T) = (Some v, None, []) -> T <> [] ->
  exists e, decode d P = (None, Some e, []) /\ classify e = Truncated.
Proof.
  intros H HT.
  destruct (decode_ok_script _ _ _ _ H) as [vs E].
  destruct (runScript_cut _ _ _ _ _ E) as [(P' & EP & _) | (vs' & e & E' & C)].
  - destruct P'; destruct T; try discriminate EP. contradiction.
  - exists e. split; [| exact C]. eapply decode_script_error. exact E'.
Qed.

Lemma X9_witness :
  exists e, decode DObject (firstn 4 object_bytes) = (None, Some e, []) /\
            classify e = Truncated.
Proof.
  apply (X9_proper_prefix_is_rejected DObject (firstn 4 object_bytes)
           (skipn 4 object_bytes)
           (RecObject (mkobject 8192 [1; 2; 3] (Some [mkfield fieldKindPtr 0])))).
  - vm_compute. reflexivity.
  - vm_compute. discriminate.
Defined.



(** X11.  A decoder that succeeds has read a nonempty prefix of the
    source and left the rest as it was; the prefix alone decodes to the
    same record.  So every successful decode makes progress. *)
Theorem X11_decoder_reads_a_prefix (d : decoder) (r : reader) v r' :
  decode d r = (Some v, None, r') ->
  exists c, c <> [] /\ r = c ++ r' /\ decode d c = (Some v, None, []) /\
            (List.length r' < List.length r)%nat.
Proof.
  intros H.
  destruct (decode_ok_script _ _ _ _ H) as [vs E].
  destruct (runScript_split _ _ _ _ E) as (c & -> & Ec).
  destruct (decode_script_ok _ _ _ _ Ec) as [v' Dc].
  pose proof (decode_app _ _ _ _ r' Dc) as Dr. cbn [app] in Dr.
  rewrite H in Dr. inversion Dr; subst v'.
  assert (N : c <> []).
  { intros ->. rewrite decode_nil in Dc. discriminate Dc. }
  exists c. repeat split; try assumption.
  rewrite length_app. destruct c; [contradiction | cbn [List.length]; lia].
Qed.

Lemma X11_witness :
  exists c, c <> [] /\ object_bytes ++ [5; 6] = c ++ [5; 6] /\
            decode DObject c =
            (Some (RecObject (mkobject 8192 [1; 2; 3] (Some [mkfield fieldKindPtr 0]))),
             None, []) /\
            (List.length [5; 6]%Z < List.length (object_bytes ++ [5; 6]%Z))%nat.
Proof.
  apply (X11_decoder_reads_a_prefix DObject (object_bytes ++ [5; 6])).
  vm_compute. reflexivity.
Defined.


(** X13.  The fields [readFieldlist] returns are always well formed: no
    kind is 0 (the list ends at the first [End]), every kind is in the
    range of [int] and every offset a [uint64]; so what it returns can
    be written back and read again. *)
Theorem X13_readFieldlist_fields_wf (r : reader) fs r' :
  readFieldlist r = (Some fs, None, r') ->
  Forall wf_field fs /\
  readFieldlist (PutFieldlist fs ++ r') = (Some fs, None, r').
Proof.
  intros H.
  assert (W : Forall wf_field fs).
  { eapply readFieldlist_loop_wf; [constructor | exact H]. }
  split; [exact W |].
  unfold readFieldlist.
  rewrite readFieldlist_loop_PutFieldlist; [reflexivity | exact W | lia].
Qed.

Lemma X13_witness :
  Forall wf_field [mkfield 1 0; mkfield 2 8] /\
  readFieldlist (PutFieldlist [mkfield 1 0; mkfield 2 8] ++ [9]) =
  (Some [mkfield 1 0; mkfield 2 8], None, [9]).
Proof.
  apply (X13_readFieldlist_fields_wf [129; 0; 0; 2; 8; 0; 9]).
  vm_compute. reflexivity.
Defined.

(** X14.  Whenever [readString] succeeds, the source was a uvarint
    holding the length of the returned string, followed by exactly the
    returned bytes, followed by what is left in the source. *)
Theorem X14_readString_is_length_then_bytes (r : reader) (b : list byte) r' :
  readString r = (b, None, r') ->
  exists c, r = c ++ b ++ r' /\ ReadUvarint c = (len b, None, []).
Proof.
  unfold readString. intros H.
  destruct (ReadUvarint r) as [[n [e |]] r1] eqn:E1; [discriminate H |].
  destruct (ReadFull n r1) as [[buf [e |]] r2] eqn:E2; [discriminate H |].
  inversion H; subst.
  pose proof (ReadUvarint_range _ _ _ _ E1) as Rn.
  destruct (ReadUvarint_split _ _ _ E1) as (c & -> & Ec).
  exists c. unfold ReadFull, len in *.
  destruct (Z.leb_spec n 0) as [L0 | G0].
  - inversion E2; subst. split; [reflexivity |].
    replace n with 0 in Ec by lia. exact Ec.
  - destruct (Z.leb_spec n (Z.of_nat (List.length r1))) as [L | G].
    + inversion E2; subst. rewrite firstn_skipn. split; [reflexivity |].
      rewrite length_firstn.
      replace (Z.of_nat (Nat.min (Z.to_nat n) (List.length r1))) with n by lia.
      exact Ec.
    + destruct r1; discriminate E2.
Qed.

Lemma X14_witness :
  exists c, [130; 0; 7; 8; 9] = c ++ [7; 8] ++ [9] /\
            ReadUvarint c = (len [7; 8], None, []).
Proof.
  apply (X14_readString_is_length_then_bytes [130; 0; 7; 8; 9] [7; 8] [9]).
  vm_compute. reflexivity.
Defined.
